(** * hw3.cpp: serial line buffer, tokenizer and int8 inference pipeline

    A shallow embedding of [src/hw3.cpp].  The sketch reads bytes from the
    serial port into a 64-byte buffer, hands the buffer to [strtok]/[atoi]
    at each carriage return, and runs seven parsed integers through an
    int8 TensorFlow Lite Micro model. *)

From Stdlib Require Import ZArith QArith Qabs Qround Lia Ascii String SpecFloat.
From stdpp Require Import base option list.

Local Open Scope nat_scope.

(** ** Constants of the sketch *)

Definition INPUT_BUFFER_SIZE : nat := 64.
Definition INT_ARRAY_SIZE : nat := 7.

Definition NUL : ascii := "000"%char.
Definition CR : ascii := "013"%char.
Definition comma : ascii := ","%char.

(** ** C strings

    A [char] array is a list of bytes.  The string a [char *] denotes is the
    content up to the first NUL byte; when the array holds no NUL byte the
    readers ([strtok], [atoi]) run past its end, which C++ leaves without
    meaning: [c_str] then has no value. *)

Fixpoint c_str (mem : list ascii) : option (list ascii) :=
  match mem with
  | [] => None
  | c :: mem' =>
      if Ascii.eqb c NUL then Some []
      else match c_str mem' with
           | Some s => Some (c :: s)
           | None => None
           end
  end.

(** [memset(buf, 0, n)] over the whole array. *)
Definition memset0 (n : nat) : list ascii := replicate n NUL.

(** ** [strtok] with the delimiter set [","]

    [strspn] and [strcspn] are split into the four list functions below.
    [strtok] returns the token (if any) and the saved position from which
    [strtok(NULL, ",")] resumes. *)

Fixpoint skip_delims (s : list ascii) : list ascii :=
  match s with
  | c :: s' => if Ascii.eqb c comma then skip_delims s' else s
  | [] => []
  end.

Fixpoint token_of (s : list ascii) : list ascii :=
  match s with
  | c :: s' => if Ascii.eqb c comma then [] else c :: token_of s'
  | [] => []
  end.

Fixpoint after_token (s : list ascii) : list ascii :=
  match s with
  | c :: s' => if Ascii.eqb c comma then s' else after_token s'
  | [] => []
  end.

Definition strtok (str : list ascii) : option (list ascii) * list ascii :=
  match skip_delims str with
  | [] => (None, [])
  | c :: s => (Some (token_of (c :: s)), after_token (c :: s))
  end.

(** [strtok] also writes into the string: the delimiter that ends the
    token it returns is overwritten with NUL.  [strtok_write str] is the
    content of [str] after one call that starts at its first character,
    and [strtok_writes calls str] the content after [calls] successive
    calls, each resuming at the position saved by the one before. *)

Fixpoint end_token (s : list ascii) : list ascii :=
  match s with
  | c :: s' => if Ascii.eqb c comma then NUL :: s' else c :: end_token s'
  | [] => []
  end.

Fixpoint strtok_write (str : list ascii) : list ascii :=
  match str with
  | c :: s' => if Ascii.eqb c comma then c :: strtok_write s' else end_token str
  | [] => []
  end.

Fixpoint strtok_writes (calls : nat) (str : list ascii) : list ascii :=
  match calls with
  | 0 => str
  | S calls' =>
      let '(_, saved) := strtok str in
      let passed := length str - length saved in
      take passed (strtok_write str) ++ strtok_writes calls' saved
  end.

(** ** [int]

    An [int] has 32 bits.  [wrap_int z] is the [int] that an operation
    with the mathematical result [z] leaves: the low 32 bits of [z], read
    as a signed number. *)

Definition wrap_int (z : Z) : Z := ((z + 2 ^ 31) mod 2 ^ 32 - 2 ^ 31)%Z.

(** ** [atoi]

    The C library function: optional white space, an optional sign, then
    the longest run of decimal digits; the value is 0 when there is no
    digit.  [signed_digits] is the number that is written and [atoi] the
    [int] returned for it.  (For a number that an [int] cannot hold the C
    standard fixes no result; the result modelled is the one of the usual
    conversion, the low 32 bits.) *)

Definition isspace (c : ascii) : bool :=
  let n := nat_of_ascii c in
  (n =? 32) || ((9 <=? n) && (n <=? 13)).

Definition isdigit (c : ascii) : bool :=
  let n := nat_of_ascii c in (48 <=? n) && (n <=? 57).

Definition digit_value (c : ascii) : Z := Z.of_nat (nat_of_ascii c) - 48.

Fixpoint skip_space (s : list ascii) : list ascii :=
  match s with
  | c :: s' => if isspace c then skip_space s' else s
  | [] => []
  end.

Fixpoint digits (acc : Z) (s : list ascii) : Z :=
  match s with
  | c :: s' => if isdigit c then digits (10 * acc + digit_value c) s' else acc
  | [] => acc
  end.

Definition signed_digits (s : list ascii) : Z :=
  match skip_space s with
  | c :: s' =>
      if Ascii.eqb c "-"%char then (- digits 0 s')%Z
      else if Ascii.eqb c "+"%char then digits 0 s'
      else digits 0 (c :: s')
  | [] => 0%Z
  end.

Definition atoi (s : list ascii) : Z := wrap_int (signed_digits s).

(** ** [string_to_array]

    The [while] loop stores one value per token and leaves as soon as
    [num_integers] reaches [INT_ARRAY_SIZE]; the next [strtok] call is made
    before that test, as in the source.  [room] bounds the iterations: the
    loop cannot run more than [INT_ARRAY_SIZE] times, so every store is
    inside the [INT_ARRAY_SIZE] cells of [input_array]. *)

Fixpoint string_to_array_loop (room : nat) (token : option (list ascii))
    (saved : list ascii) (int_array : list Z) (num_integers : nat)
    : list Z * nat :=
  match token, room with
  | Some tok, S room' =>
      let int_array' := <[num_integers := atoi tok]> int_array in
      let num_integers' := S num_integers in
      let '(token', saved') := strtok saved in
      if INT_ARRAY_SIZE <=? num_integers' then (int_array', num_integers')
      else string_to_array_loop room' token' saved' int_array' num_integers'
  | _, _ => (int_array, num_integers)
  end.

Definition string_to_array (in_str : list ascii) (int_array : list Z)
    : list Z * nat :=
  let '(token, saved) := strtok in_str in
  string_to_array_loop INT_ARRAY_SIZE token saved int_array 0.


(** ** Single-precision arithmetic

    [float] is IEEE 754 binary32: 24 bits of precision, exponents up to
    128.  The operations are the Standard Library's bit-level
    specification, rounding to nearest even. *)

Definition prec32 : Z := 24.
Definition emax32 : Z := 128.

Definition float := spec_float.

(** Conversion [int -> float], as for the [int] operand of [/] and [*]. *)
Definition float_of_int (z : Z) : float := binary_normalize prec32 emax32 z 0 false.

Definition fdiv (x y : float) : float := SFdiv prec32 emax32 x y.
Definition fmul (x y : float) : float := SFmul prec32 emax32 x y.

(** The rational number a finite float stands for (0 for the others):
    mantissa [m] and exponent [e] denote [m * 2^e], given here as a
    fraction of two positive numbers. *)
Definition magnitude (m : positive) (e : Z) : positive * positive :=
  match e with
  | Z0 => (m, 1%positive)
  | Zpos p => ((m * 2 ^ p)%positive, 1%positive)
  | Zneg k => (m, (2 ^ k)%positive)
  end.

Definition F2Q (f : float) : Q :=
  match f with
  | S754_finite s m e =>
      let '(n, d) := magnitude m e in
      Qmake (if s then Zneg n else Zpos n) d
  | _ => 0%Q
  end.

Definition is_finite (f : float) : bool :=
  match f with
  | S754_zero _ | S754_finite _ _ _ => true
  | _ => false
  end.

(** Magnitude of a finite float with its fraction dropped. *)
Definition mag_trunc (m : positive) (e : Z) : Z :=
  match e with
  | Zneg k => Z.shiftr (Zpos m) (Zpos k)
  | _ => Z.shiftl (Zpos m) e
  end.

(** Conversion [float -> integer]: the fraction is discarded; infinities
    and NaN have no integer value. *)
Definition float_trunc (f : float) : option Z :=
  match f with
  | S754_zero _ => Some 0%Z
  | S754_finite s m e => Some (if s then - mag_trunc m e else mag_trunc m e)%Z
  | _ => None
  end.

Definition INT8_MIN : Z := -128.
Definition INT8_MAX : Z := 127.

Definition fits_int8 (z : Z) : bool := (INT8_MIN <=? z)%Z && (z <=? INT8_MAX)%Z.

(** [static_cast<int8_t>(f)]: the truncated value when [int8_t] can hold it.
    Outside that range C++ gives the conversion no meaning: there is no
    value. *)
Definition static_cast_int8 (f : float) : option Z :=
  match float_trunc f with
  | Some z => if fits_int8 z then Some z else None
  | None => None
  end.

(** [round] (the C library function; the Arduino core's macro of that name
    gives the same result): to the nearest integer, halfway cases away from
    zero.  Infinities and NaN have no integer value. *)
Definition mag_round (m : positive) (e : Z) : Z :=
  match e with
  | Zneg k => Z.shiftr (Z.shiftl (Zpos m) 1 + Z.shiftl 1 (Zpos k)) (Zpos k + 1)
  | _ => Z.shiftl (Zpos m) e
  end.

Definition round (f : float) : option Z :=
  match f with
  | S754_zero _ => Some 0%Z
  | S754_finite s m e => Some (if s then - mag_round m e else mag_round m e)%Z
  | _ => None
  end.

(** Conversion to [int] (32 bits on the boards the interpreter runs on). *)
Definition INT_MIN : Z := - 2 ^ 31.
Definition INT_MAX : Z := 2 ^ 31 - 1.

Definition int_of (z : option Z) : option Z :=
  match z with
  | Some n => if (INT_MIN <=? n)%Z && (n <=? INT_MAX)%Z then Some n else None
  | None => None
  end.

Definition f_one : float := float_of_int 1.
Definition f_half : float := fdiv (float_of_int 1) (float_of_int 2).
Definition f_tenth : float := fdiv (float_of_int 1) (float_of_int 10).

(** ** Quantisation and dequantisation, as written in [measure_and_run_model] *)

(** [static_cast<int8_t>((input_array[i] - input_zero_point) / input_scale)]:
    the difference is computed in [int], converted to [float] and divided. *)
Definition quantized_value (x : Z) (input_scale : float) (input_zero_point : Z)
    : option Z :=
  static_cast_int8
    (fdiv (float_of_int (wrap_int (x - input_zero_point))) input_scale).

(** [(raw_prediction - output_zero_point) * output_scale], the difference
    again computed in [int]. *)
Definition predicted_float (raw_prediction : Z) (output_scale : float)
    (output_zero_point : Z) : float :=
  fmul (float_of_int (wrap_int (raw_prediction - output_zero_point))) output_scale.

(** [int predicted_integer = round(predicted_float)] followed by the two
    clamping [if]s. *)
Definition clamp_ifs (predicted_integer : Z) : Z :=
  let p1 := if (predicted_integer <? -128)%Z then (-128)%Z else predicted_integer in
  if (p1 >? 127)%Z then 127%Z else p1.

Definition predicted_integer (pf : float) : option Z :=
  match int_of (round pf) with
  | Some n => Some (clamp_ifs n)
  | None => None
  end.

(** ** The interpreter boundary

    The tensors and the interpreter belong to the TensorFlow Lite Micro
    library.  A tensor is known to the sketch by its element type and its
    quantisation parameters. *)

Inductive TfLiteType := kTfLiteInt8 | kTfLiteFloat32 | kTfLiteUInt8 | kTfLiteOtherType.

Definition is_int8 (t : TfLiteType) : bool :=
  match t with kTfLiteInt8 => true | _ => false end.

Record TfLiteTensor := {
  type : TfLiteType;
  params_scale : float;
  params_zero_point : Z
}.

(** ** Output and tensor events *)

Inductive stamp := t0 | t1 | t2.

Inductive event :=
  | print_char (c : ascii)                 (* Serial.print(received_char) *)
  | print (s : string)                     (* Serial.print("...") *)
  | println (s : string)                   (* Serial.println("...") *)
  | println_empty                          (* Serial.println() *)
  | println_float (f : float)
  | println_int (z : Z)
  | println_elapsed (later earlier : stamp)  (* Serial.println(t1 - t0) *)
  | input_store (i : nat) (q : Z)          (* input_tensor->data.int8[i] = q *)
  | Invoke_call.                           (* interpreter->Invoke() *)

(** A call either returns a value or reaches a point where C++ gives the
    program no meaning (a null tensor pointer is read, a string runs past
    its array, a conversion leaves its range).  In both cases the events
    emitted up to that point are kept. *)
Inductive outcome (A : Type) :=
  | Done (a : A)
  | Undefined.
Arguments Done {A} a.
Arguments Undefined {A}.

(** Messages that the properties refer to. *)
Definition banner : event := println "TFLM Sine Wave Prediction Model Initializing...".
Definition running : string := "Running inference...".
Definition error_arity : string := "Error: Please enter exactly 7 integers.".

(** ** Global variables of the sketch *)

Record globals := {
  interpreter : bool;                      (* true once it points to the interpreter *)
  input_tensor : option TfLiteTensor;      (* None: null pointer *)
  output_tensor : option TfLiteTensor;
  in_str_buff : list ascii;
  input_array : list Z;
  in_buff_idx : nat
}.

(** Static storage is zero-initialised. *)
Definition initial_globals : globals := {|
  interpreter := false;
  input_tensor := None;
  output_tensor := None;
  in_str_buff := memset0 INPUT_BUFFER_SIZE;
  input_array := replicate INT_ARRAY_SIZE 0%Z;
  in_buff_idx := 0
|}.

Definition set_tensors (g : globals) (i o : option TfLiteTensor) : globals :=
  {| interpreter := interpreter g; input_tensor := i; output_tensor := o;
     in_str_buff := in_str_buff g; input_array := input_array g;
     in_buff_idx := in_buff_idx g |}.

Definition set_interpreter (g : globals) : globals :=
  {| interpreter := true; input_tensor := input_tensor g;
     output_tensor := output_tensor g; in_str_buff := in_str_buff g;
     input_array := input_array g; in_buff_idx := in_buff_idx g |}.

Definition set_input_array (g : globals) (a : list Z) : globals :=
  {| interpreter := interpreter g; input_tensor := input_tensor g;
     output_tensor := output_tensor g; in_str_buff := in_str_buff g;
     input_array := a; in_buff_idx := in_buff_idx g |}.

Definition set_line (g : globals) (buf : list ascii) (idx : nat) : globals :=
  {| interpreter := interpreter g; input_tensor := input_tensor g;
     output_tensor := output_tensor g; in_str_buff := buf;
     input_array := input_array g; in_buff_idx := idx |}.

Section Sketch.

(** What the library and the embedded model decide. *)
Variable TFLITE_SCHEMA_VERSION : Z.
Variable model_version : Z.               (* model->version() *)
Variable AllocateTensors : bool.          (* true: kTfLiteOk *)
Variable interpreter_input : TfLiteTensor.   (* interpreter->input(0) *)
Variable interpreter_output : TfLiteTensor.  (* interpreter->output(0) *)
(** [Invoke] run on the seven input bytes: [None] when the status is not
    [kTfLiteOk], otherwise [output_tensor->data.int8[0]]. *)
Variable Invoke : list Z -> option Z.

(** ** [setup] *)

Definition setup (g : globals) : list event * globals :=
  if negb (model_version =? TFLITE_SCHEMA_VERSION)%Z then
    ([banner; println "Model schema version mismatch!"], g)
  else
    let g1 := set_interpreter g in
    if negb AllocateTensors then
      ([banner; println "Failed to allocate tensors!"], g1)
    else
      ([banner; println "Model loaded successfully!"],
       set_tensors g1 (Some interpreter_input) (Some interpreter_output)).

(** ** [measure_and_run_model] *)

(** The quantisation loop, from index [i], [count] iterations left.
    Returns the stores made and the bytes written, unless an element has
    no defined quantised value. *)
Fixpoint quantize_loop (count i : nat) (input_array : list Z)
    (input_scale : float) (input_zero_point : Z) : list event * outcome (list Z) :=
  match count with
  | 0 => ([], Done [])
  | S count' =>
      match input_array !! i with
      | None => ([], Undefined)
      | Some x =>
          match quantized_value x input_scale input_zero_point with
          | None => ([], Undefined)
          | Some q =>
              let '(evs, r) := quantize_loop count' (S i) input_array
                                 input_scale input_zero_point in
              (input_store i q :: evs,
               match r with Done qs => Done (q :: qs) | Undefined => Undefined end)
          end
      end
  end.

Definition report (pf : float) : list event * outcome unit :=
  let head := [print "Raw dequantized prediction (float): "; println_float pf] in
  match predicted_integer pf with
  | None => (head, Undefined)
  | Some p =>
      (head ++ [print "Predicted next integer value: "; println_int p;
                print "Printing time (us): "; println_elapsed t1 t0;
                print "Inference time (us): "; println_elapsed t2 t1],
       Done tt)
  end.

Definition measure_and_run_model (g : globals) : list event * outcome unit :=
  let start := [println running] in
  match input_tensor g with
  | None => (start, Undefined)
  | Some tin =>
      if negb (is_int8 (type tin)) then
        (start ++ [println "Error: Expected int8 tensors!"], Done tt)
      else
        match output_tensor g with
        | None => (start, Undefined)
        | Some tout =>
            if negb (is_int8 (type tout)) then
              (start ++ [println "Error: Expected int8 tensors!"], Done tt)
            else
              let '(stores, r) :=
                quantize_loop INT_ARRAY_SIZE 0 (input_array g)
                  (params_scale tin) (params_zero_point tin) in
              match r with
              | Undefined => (start ++ stores, Undefined)
              | Done qs =>
                  if negb (interpreter g) then (start ++ stores, Undefined)
                  else
                    match Invoke qs with
                    | None =>
                        (start ++ stores ++ [Invoke_call; println "Model inference failed!"],
                         Done tt)
                    | Some raw_prediction =>
                        let '(out, r') :=
                          report (predicted_float raw_prediction
                                    (params_scale tout) (params_zero_point tout)) in
                        (start ++ stores ++ Invoke_call :: out, r')
                    end
              end
        end
  end.

(** ** [process_input]

    [string_to_array] reads [in_str_buff] as a C string and fills
    [input_array].  It calls [strtok] once before its loop and once in
    each iteration, that is once more than the number of values it
    returns; these calls leave their NUL bytes in the buffer. *)

Definition returning (g : globals) (r : list event * outcome unit)
    : list event * outcome globals :=
  match r with
  | (evs, Done _) => (evs, Done g)
  | (evs, Undefined) => (evs, Undefined)
  end.

Definition process_input (g : globals) : list event * outcome globals :=
  match c_str (in_str_buff g) with
  | None => ([], Undefined)
  | Some in_str =>
      let '(int_array, num_values) := string_to_array in_str (input_array g) in
      let in_str_buff' :=
        strtok_writes (S num_values) in_str ++ drop (length in_str) (in_str_buff g) in
      let g' := set_line (set_input_array g int_array) in_str_buff' (in_buff_idx g) in
      if negb (num_values =? INT_ARRAY_SIZE) then
        ([println error_arity], Done g')
      else
        returning g' (measure_and_run_model g')
  end.

(** ** [loop], for one available byte *)

Definition loop (g : globals) (received_char : ascii) : list event * outcome globals :=
  let idx := in_buff_idx g in
  if negb (idx <? length (in_str_buff g)) then
    ([print_char received_char], Undefined)   (* store outside the array *)
  else
    let g1 := set_line g (<[idx := received_char]> (in_str_buff g)) (S idx) in
    if Ascii.eqb received_char CR then
      match process_input g1 with
      | (evs, Done g2) =>
          (print_char received_char :: println_empty :: evs,
           Done (set_line g2 (memset0 INPUT_BUFFER_SIZE) 0))
      | (evs, Undefined) =>
          (print_char received_char :: println_empty :: evs, Undefined)
      end
    else if INPUT_BUFFER_SIZE <=? in_buff_idx g1 then
      ([print_char received_char], Done (set_line g1 (memset0 INPUT_BUFFER_SIZE) 0))
    else
      ([print_char received_char], Done g1).

(** The sketch fed a sequence of bytes, one [loop] call per byte. *)
Fixpoint run (g : globals) (bytes : list ascii) : list event * outcome globals :=
  match bytes with
  | [] => ([], Done g)
  | c :: bytes' =>
      match loop g c with
      | (evs, Done g') =>
          let '(evs', r) := run g' bytes' in (evs ++ evs', r)
      | (evs, Undefined) => (evs, Undefined)
      end
  end.

End Sketch.

(** * Vocabulary of the properties *)

(** ** Input text *)

Definition chars (s : string) : list ascii := list_ascii_of_string s.

(** A line as it arrives: its text, then the terminator. *)
Definition line_of (s : string) : list ascii := chars s ++ [CR].

(** ** Fields and tokens *)

(** The comma-separated fields of a string, empty ones included, and the
    tokens: the fields that are not empty. *)
Fixpoint fields (s : list ascii) : list (list ascii) :=
  match s with
  | [] => [[]]
  | c :: s' =>
      if Ascii.eqb c comma then [] :: fields s'
      else match fields s' with
           | f :: fs => (c :: f) :: fs
           | [] => [[c]]
           end
  end.

Definition nonempty (f : list ascii) : bool :=
  match f with [] => false | _ => true end.

Definition tokens (s : list ascii) : list (list ascii) := filter nonempty (fields s).

(** Consecutive stores [a[n] = v0; a[n+1] = v1; ...]. *)
Fixpoint store_from (n : nat) (vals : list Z) (a : list Z) : list Z :=
  match vals with
  | [] => a
  | v :: vals' => store_from (S n) vals' (<[n := v]> a)
  end.

Definition pending_tokens (token : option (list ascii)) (saved : list ascii)
    : list (list ascii) :=
  match token with
  | Some tok => tok :: tokens saved
  | None => []
  end.

(** ** Content of the line buffer *)

(** The part of a byte sequence before its first NUL. *)
Fixpoint until_nul (l : list ascii) : list ascii :=
  match l with
  | [] => []
  | c :: l' => if Ascii.eqb c NUL then [] else c :: until_nul l'
  end.

Definition nul_free (l : list ascii) : bool :=
  forallb (fun c => negb (Ascii.eqb c NUL)) l.

(** [holds g l]: the buffer holds the bytes [l], received since the last
    reset, followed by NUL bytes, and the cursor stands after them. *)
Definition holds (g : globals) (l : list ascii) : Prop :=
  in_str_buff g = l ++ replicate (INPUT_BUFFER_SIZE - length l) NUL
  /\ in_buff_idx g = length l
  /\ length l < INPUT_BUFFER_SIZE.

Definition cr_free (l : list ascii) : bool :=
  forallb (fun c => negb (Ascii.eqb c CR)) l.

(** The state in which the buffer holds exactly [l]. *)
Definition with_line (g : globals) (l : list ascii) : globals :=
  set_line g (l ++ replicate (INPUT_BUFFER_SIZE - length l) NUL) (length l).

(** What [loop] does with the result of [process_input]. *)
Definition after_line (r : list event * outcome globals) : list event * outcome globals :=
  match r with
  | (evs, Done g2) =>
      (print_char CR :: println_empty :: evs, Done (with_line g2 []))
  | (evs, Undefined) => (print_char CR :: println_empty :: evs, Undefined)
  end.

(** ** Events *)

(** Events that touch the model: a store into the input tensor or a call
    of [Invoke]. *)
Definition is_inference (e : event) : bool :=
  match e with
  | input_store _ _ | Invoke_call => true
  | _ => false
  end.

Definition is_println (s : string) (e : event) : bool :=
  match e with
  | println s' => String.eqb s s'
  | _ => false
  end.

(** ** A model and interpreter to evaluate the sketch on

    Int8 tensors with scale 1 and zero point 0, and an interpreter whose
    output byte is its first input byte. *)

Definition unit_tensor : TfLiteTensor :=
  {| type := kTfLiteInt8; params_scale := f_one; params_zero_point := 0 |}.

Definition echo_Invoke (qs : list Z) : option Z := Some (hd 0%Z qs).

Definition ready_globals : globals :=
  (setup 3 3 true unit_tensor unit_tensor initial_globals).2.

(** ** Syntax of tokens *)

(** A token written as an optional sign followed by decimal digits only. *)
Definition unsigned_part (tok : list ascii) : list ascii :=
  match tok with
  | c :: r => if Ascii.eqb c "-"%char || Ascii.eqb c "+"%char then r else tok
  | [] => []
  end.

Definition valid_integer (tok : list ascii) : bool :=
  nonempty (unsigned_part tok) && forallb isdigit (unsigned_part tok).

(** The number a sequence of decimal digits writes, by the weight of each
    position, and the beginning of a token as [atoi] reads it: white space,
    then at most one sign. *)
Fixpoint decimal (ds : list ascii) : Z :=
  match ds with
  | [] => 0
  | d :: ds' => digit_value d * 10 ^ Z.of_nat (length ds') + decimal ds'
  end.

Definition is_sign (sg : list ascii) : bool :=
  match sg with
  | [] => true
  | [c] => Ascii.eqb c "-"%char || Ascii.eqb c "+"%char
  | _ => false
  end.

Definition sign_value (sg : list ascii) : Z :=
  match sg with
  | c :: _ => if Ascii.eqb c "-"%char then (-1)%Z else 1%Z
  | [] => 1%Z
  end.

Definition fits_int (z : Z) : bool := (INT_MIN <=? z)%Z && (z <=? INT_MAX)%Z.

(** A character after which no digit, white space or sign of the number
    goes on. *)
Definition no_digit (rest : list ascii) : Prop :=
  match rest with c :: _ => isdigit c = false | [] => True end.

Definition no_number (rest : list ascii) : Prop :=
  match rest with
  | c :: _ => isdigit c = false /\ isspace c = false /\ is_sign [c] = false
  | [] => True
  end.

(** ** Rounding of rational values

    Toward zero, and to the nearest integer with halves away from zero. *)
Definition round_toward_zero (q : Q) : Z := (Z.sgn (Qnum q) * Qfloor (Qabs q))%Z.

Definition round_to_nearest (q : Q) : Z :=
  (Z.sgn (Qnum q) * Qfloor (Qabs q + (1 # 2)))%Z.

Definition clamp_int8 (n : Z) : Z := Z.max INT8_MIN (Z.min INT8_MAX n).

(** ** Round trip

    Quantising [d + zero_point] with scale 1 and reading the byte back:
    whether the byte is [d] and the value read back is the input less twice
    the zero point. *)
Definition round_trip_check (zero_point d : Z) : bool :=
  let x := (d + zero_point)%Z in
  match quantized_value x f_one zero_point with
  | Some q =>
      (q =? d)%Z
      && Qeq_bool (F2Q (predicted_float q f_one zero_point))
           (inject_Z (x - 2 * zero_point))
  | None => false
  end.

(** ** Vocabulary of the further properties *)

(** The stores [input_tensor->data.int8[i] = q], [i] counting up. *)
Fixpoint stores (i : nat) (qs : list Z) : list event :=
  match qs with
  | [] => []
  | q :: qs' => input_store i q :: stores (S i) qs'
  end.

(** The quantised values of a sequence of inputs, when each has one. *)
Fixpoint quantize_all (vals : list Z) (input_scale : float) (input_zero_point : Z)
    : option (list Z) :=
  match vals with
  | [] => Some []
  | x :: vals' =>
      match quantized_value x input_scale input_zero_point,
            quantize_all vals' input_scale input_zero_point with
      | Some q, Some qs => Some (q :: qs)
      | _, _ => None
      end
  end.

(** The lines printed for a prediction. *)
Definition report_events (pf : float) (p : Z) : list event :=
  [print "Raw dequantized prediction (float): "; println_float pf;
   print "Predicted next integer value: "; println_int p;
   print "Printing time (us): "; println_elapsed t1 t0;
   print "Inference time (us): "; println_elapsed t2 t1].

Definition is_echo (e : event) : bool :=
  match e with print_char _ => true | _ => false end.

Definition is_Invoke (e : event) : bool :=
  match e with Invoke_call => true | _ => false end.

Definition is_CR (c : ascii) : bool := Ascii.eqb c CR.

Definition comma_free (t : list ascii) : bool :=
  forallb (fun c => negb (Ascii.eqb c comma)) t.

(** Tokens written one after the other with a comma in between. *)
Fixpoint join (toks : list (list ascii)) : list ascii :=
  match toks with
  | [] => []
  | [t] => t
  | t :: toks' => t ++ comma :: join toks'
  end.

(** An event that stays inside the tensors' ranges: a store below index
    [INT_ARRAY_SIZE] of a byte in [-128, 127], a printed integer in
    [-128, 127]; any other event. *)
Definition in_range_event (e : event) : bool :=
  match e with
  | input_store i q => (i <? INT_ARRAY_SIZE) && fits_int8 q
  | println_int p => fits_int8 p
  | _ => true
  end.

(** Two states with the same interpreter, tensors, buffer and cursor. *)
Definition same_but_input_array (g g' : globals) : Prop :=
  interpreter g' = interpreter g
  /\ input_tensor g' = input_tensor g
  /\ output_tensor g' = output_tensor g
  /\ in_str_buff g' = in_str_buff g
  /\ in_buff_idx g' = in_buff_idx g.

(** Whether the type test of [measure_and_run_model] fails: the input
    tensor is not int8, or it is and the output tensor is not. *)
Definition tensors_not_int8 (g : globals) : bool :=
  match input_tensor g with
  | Some tin =>
      negb (is_int8 (type tin))
      || match output_tensor g with
         | Some tout => negb (is_int8 (type tout))
         | None => false
         end
  | None => false
  end.

(** Two states with the same interpreter and tensors, and input arrays of
    the same size. *)
Definition same_engine (g g' : globals) : Prop :=
  interpreter g' = interpreter g
  /\ input_tensor g' = input_tensor g
  /\ output_tensor g' = output_tensor g
  /\ length (input_array g') = length (input_array g).

(** Two states that differ at most in the content of [input_array], and
    two outcomes that are both undefined or return such states. *)
Definition agree (g g' : globals) : Prop :=
  same_but_input_array g g'
  /\ length (input_array g) = INT_ARRAY_SIZE
  /\ length (input_array g') = INT_ARRAY_SIZE.

Definition outcomes_agree (r r' : outcome globals) : Prop :=
  match r, r' with
  | Done a, Done b => agree a b
  | Undefined, Undefined => True
  | _, _ => False
  end.

(** A store of a byte of [int8_t] below index [n]. *)
Definition store_below (n : nat) (e : event) : bool :=
  match e with
  | input_store i q => (i <? n) && fits_int8 q
  | _ => false
  end.

Definition type_error : string := "Error: Expected int8 tensors!".
Definition invoke_failed : string := "Model inference failed!".

(** What [measure_and_run_model] emits after the stores, with its
    outcome. *)
Definition measure_tail (r : outcome unit) (tail : list event) : Prop :=
  (r = Undefined /\ tail = [])
  \/ (r = Done tt /\ tail = [println type_error])
  \/ (r = Done tt /\ tail = [Invoke_call; println invoke_failed])
  \/ (r = Undefined
      /\ exists pf, tail = [Invoke_call; print "Raw dequantized prediction (float): ";
                            println_float pf])
  \/ (r = Done tt
      /\ exists pf p, tail = Invoke_call :: report_events pf p /\ fits_int8 p = true).

Definition not_echo (e : event) : bool := negb (is_echo e).

Definition is_printed (e : event) : bool := negb (is_inference e).

Fixpoint count_commas (s : list ascii) : nat :=
  match s with
  | [] => 0
  | c :: s' => if Ascii.eqb c comma then S (count_commas s') else count_commas s'
  end.

(** A token as a well-formed line has them: not empty, without a comma. *)
Definition plain_token (t : list ascii) : bool := nonempty t && comma_free t.

(** A scale other than zero and NaN. *)
Definition divides (input_scale : float) : bool :=
  match input_scale with
  | S754_finite _ _ _ | S754_infinity _ => true
  | _ => false
  end.

(** What [setup] leaves in the two tensor pointers. *)
Definition tensors_after_setup (ok : bool) (tin tout : TfLiteTensor)
    : option TfLiteTensor * option TfLiteTensor :=
  if ok then (Some tin, Some tout) else (None, None).

(** ** Sequences of lines *)

(** A line of at most 62 bytes that gives fewer than seven tokens, the
    bytes sent for a sequence of lines, and the sketch's answer when each
    of them is answered with the arity error. *)
Definition short_line (l : list ascii) : bool :=
  cr_free l && (S (length l) <? INPUT_BUFFER_SIZE)
  && (length (tokens (until_nul (l ++ [CR]))) <? INT_ARRAY_SIZE).

Definition sent (lines : list (list ascii)) : list ascii :=
  concat (map (fun l => l ++ [CR]) lines).

Definition arity_answers (lines : list (list ascii)) : list event :=
  concat (map (fun l => map print_char l
                        ++ [print_char CR; println_empty; println error_arity])
            lines).

(** ** An output tensor with a large scale

    Scale 2^24 and zero point -128, with an interpreter whose output byte
    is 127: the prediction is 255 * 2^24. *)

Definition wide_tensor : TfLiteTensor :=
  {| type := kTfLiteInt8; params_scale := float_of_int 16777216;
     params_zero_point := -128 |}.

Definition top_Invoke (qs : list Z) : option Z := Some 127%Z.

Definition wide_globals : globals :=
  (setup 3 3 true unit_tensor wide_tensor initial_globals).2.

(** ** The line buffer on its own

    [loop] with the call of [process_input] left open, to follow the
    buffer and the cursor whatever that call does; [always pi] is a call
    that returns in every case. *)

Definition loop_with (process_input : globals -> list event * outcome globals)
    (g : globals) (received_char : ascii) : list event * outcome globals :=
  let idx := in_buff_idx g in
  if negb (idx <? length (in_str_buff g)) then
    ([print_char received_char], Undefined)
  else
    let g1 := set_line g (<[idx := received_char]> (in_str_buff g)) (S idx) in
    if Ascii.eqb received_char CR then
      match process_input g1 with
      | (evs, Done g2) =>
          (print_char received_char :: println_empty :: evs,
           Done (set_line g2 (memset0 INPUT_BUFFER_SIZE) 0))
      | (evs, Undefined) =>
          (print_char received_char :: println_empty :: evs, Undefined)
      end
    else if INPUT_BUFFER_SIZE <=? in_buff_idx g1 then
      ([print_char received_char], Done (set_line g1 (memset0 INPUT_BUFFER_SIZE) 0))
    else
      ([print_char received_char], Done g1).

Fixpoint run_with (process_input : globals -> list event * outcome globals)
    (g : globals) (bytes : list ascii) : list event * outcome globals :=
  match bytes with
  | [] => ([], Done g)
  | c :: bytes' =>
      match loop_with process_input g c with
      | (evs, Done g') =>
          let '(evs', r) := run_with process_input g' bytes' in (evs ++ evs', r)
      | (evs, Undefined) => (evs, Undefined)
      end
  end.

Definition always (pi : globals -> list event * globals)
    : globals -> list event * outcome globals :=
  fun g => ((pi g).1, Done (pi g).2).

(** The bytes the buffer holds after [bytes] have been received, when it
    held [l] before: a terminator and the byte that fills the last cell
    leave it empty, any other byte is appended. *)
Fixpoint pending (l bytes : list ascii) : list ascii :=
  match bytes with
  | [] => l
  | c :: bytes' =>
      pending (if Ascii.eqb c CR || (INPUT_BUFFER_SIZE <=? S (length l))
               then [] else l ++ [c]) bytes'
  end.

(** ** Numbers an [int] holds; the output of a run byte by byte *)

(** A token whose number fits an [int]. *)
Definition int_token (tok : list ascii) : bool := fits_int (signed_digits tok).

(** The output made of the echo of each byte followed by a block of
    events, and whether each block can be what its byte caused: no echo in
    it, and nothing at all unless the byte is the terminator. *)
Fixpoint echo_blocks (bytes : list ascii) (blocks : list (list event))
    {struct blocks} : list event :=
  match blocks with
  | [] => []
  | b :: blocks' =>
      match bytes with
      | c :: bytes' => print_char c :: b ++ echo_blocks bytes' blocks'
      | [] => []
      end
  end.

Fixpoint responses (bytes : list ascii) (blocks : list (list event))
    {struct blocks} : bool :=
  match blocks with
  | [] => true
  | b :: blocks' =>
      match bytes with
      | c :: bytes' =>
          forallb not_echo b
          && (is_CR c || match b with [] => true | _ => false end)
          && responses bytes' blocks'
      | [] => false
      end
  end.

(** * Properties *)

Example string_to_array_plain :
  string_to_array (chars "1,2,3,4,5,6,7") (replicate 7 0%Z)
  = ([1; 2; 3; 4; 5; 6; 7]%Z, 7).
Proof. reflexivity. Qed.

(** ** The tokenizer *)

Lemma fields_cons s : exists f fs, fields s = f :: fs.
Proof. destruct s as [|c s]; simpl; [eauto|]. destruct (Ascii.eqb c comma); [eauto|]. destruct (fields s); eauto. Qed.

Lemma tokens_comma s : tokens (comma :: s) = tokens s.
Proof. reflexivity. Qed.

Lemma tokens_skip_delims s : tokens (skip_delims s) = tokens s.
Proof.
  induction s as [|c s IH]; simpl; [reflexivity|].
  destruct (Ascii.eqb c comma) eqn:E; [|reflexivity].
  apply Ascii.eqb_eq in E. subst c. rewrite IH. reflexivity.
Qed.

Lemma fields_token_of s :
  exists fs, fields s = token_of s :: fs
             /\ filter nonempty fs = tokens (after_token s).
Proof.
  induction s as [|c s (fs & Hf & Hfs)]; simpl.
  - exists []. split; reflexivity.
  - destruct (Ascii.eqb c comma).
    + exists (fields s). split; reflexivity.
    + rewrite Hf. exists fs. split; [reflexivity | exact Hfs].
Qed.

(** A string that starts with a non-delimiter starts with a token. *)
Lemma tokens_token_of c s :
  Ascii.eqb c comma = false ->
  tokens (c :: s) = token_of (c :: s) :: tokens (after_token (c :: s)).
Proof.
  intros Hc. destruct (fields_token_of (c :: s)) as (fs & Hf & Hfs).
  unfold tokens at 1. rewrite Hf, <- Hfs.
  simpl. rewrite Hc. reflexivity.
Qed.

Lemma skip_delims_head c s s0 :
  skip_delims s0 = c :: s -> Ascii.eqb c comma = false.
Proof.
  induction s0 as [|d s0 IH]; simpl; [discriminate|].
  destruct (Ascii.eqb d comma) eqn:E; [exact IH|].
  intros [= -> ->]. exact E.
Qed.

(** [strtok] hands out the tokens one at a time. *)
Lemma strtok_tokens str :
  match strtok str with
  | (None, _) => tokens str = []
  | (Some tok, saved) => tokens str = tok :: tokens saved /\ tok <> []
  end.
Proof.
  unfold strtok. rewrite <- (tokens_skip_delims str).
  destruct (skip_delims str) as [|c s] eqn:E; [reflexivity|].
  pose proof (skip_delims_head _ _ _ E) as Hc.
  split; [apply tokens_token_of; exact Hc|].
  simpl. rewrite Hc. discriminate.
Qed.

Lemma pending_tokens_strtok str :
  pending_tokens (strtok str).1 (strtok str).2 = tokens str.
Proof.
  pose proof (strtok_tokens str) as H.
  destruct (strtok str) as [[tok|] saved]; simpl; [|symmetry; exact H].
  destruct H as [H _]. symmetry. exact H.
Qed.

Lemma string_to_array_loop_spec room :
  forall token saved int_array num,
    num + room = INT_ARRAY_SIZE ->
    string_to_array_loop room token saved int_array num
    = (store_from num (map atoi (take room (pending_tokens token saved))) int_array,
       num + min room (length (pending_tokens token saved))).
Proof.
  induction room as [|room IH]; intros token saved int_array num Hroom.
  - destruct token; simpl; f_equal; lia.
  - destruct token as [tok|]; [|simpl; f_equal; lia].
    cbn [string_to_array_loop].
    pose proof (pending_tokens_strtok saved) as Hp.
    destruct (strtok saved) as [token' saved']. cbn [fst snd] in Hp.
    cbn [pending_tokens take map store_from length].
    destruct (INT_ARRAY_SIZE <=? S num) eqn:E.
    + apply Nat.leb_le in E. assert (room = 0) by lia. subst room.
      rewrite take_0. simpl. f_equal. lia.
    + rewrite IH by lia. rewrite Hp. f_equal. lia.
Qed.

(** [string_to_array] stores the values of the first seven tokens and
    returns how many it stored. *)
Lemma string_to_array_spec in_str int_array :
  string_to_array in_str int_array
  = (store_from 0 (map atoi (take INT_ARRAY_SIZE (tokens in_str))) int_array,
     min INT_ARRAY_SIZE (length (tokens in_str))).
Proof.
  unfold string_to_array.
  pose proof (pending_tokens_strtok in_str) as Hp.
  destruct (strtok in_str) as [token saved]. cbn [fst snd] in Hp.
  rewrite string_to_array_loop_spec by reflexivity.
  rewrite Hp. reflexivity.
Qed.

Lemma store_from_app n vals a1 a2 :
  length a1 = n ->
  length vals <= length a2 ->
  store_from n vals (a1 ++ a2) = a1 ++ vals ++ drop (length vals) a2.
Proof.
  revert n a1 a2. induction vals as [|v vals IH]; intros n a1 a2 Hn Hlen.
  - simpl. rewrite drop_0. reflexivity.
  - destruct a2 as [|x a2]; [simpl in Hlen; lia|].
    cbn [store_from]. subst n.
    rewrite insert_app_r_alt by lia. rewrite Nat.sub_diag. cbn [list_insert insert].
    change (a1 ++ v :: a2) with (a1 ++ [v] ++ a2). rewrite app_assoc.
    rewrite IH; [|rewrite length_app; simpl; lia|simpl in Hlen; lia].
    rewrite <- app_assoc. reflexivity.
Qed.

Lemma store_from_all vals a :
  length vals = length a -> store_from 0 vals a = vals.
Proof.
  intros H. pose proof (store_from_app 0 vals [] a eq_refl) as E.
  simpl in E. rewrite E by lia.
  rewrite H, drop_all, app_nil_r. reflexivity.
Qed.

(** ** C strings in the line buffer *)

Lemma until_nul_nul_free l : nul_free l = true -> until_nul l = l.
Proof.
  induction l as [|c l IH]; simpl; [reflexivity|].
  destruct (Ascii.eqb c NUL); simpl; [discriminate|].
  intros H. rewrite IH by exact H. reflexivity.
Qed.

Lemma c_str_app_nul l r : c_str (l ++ NUL :: r) = Some (until_nul l).
Proof.
  induction l as [|c l IH]; simpl; [reflexivity|].
  destruct (Ascii.eqb c NUL); [reflexivity|]. rewrite IH. reflexivity.
Qed.

Lemma c_str_nul_free l : nul_free l = true -> c_str l = None.
Proof.
  induction l as [|c l IH]; simpl; [reflexivity|].
  destruct (Ascii.eqb c NUL); simpl; [discriminate|].
  intros H. rewrite IH by exact H. reflexivity.
Qed.

(** ** The line accumulator *)

Lemma holds_length g l : holds g l -> length (in_str_buff g) = INPUT_BUFFER_SIZE.
Proof.
  intros (Hb & _ & Hl). rewrite Hb, length_app, length_replicate. lia.
Qed.

Lemma holds_cursor g l : holds g l -> in_buff_idx g < INPUT_BUFFER_SIZE.
Proof. intros (_ & Hi & Hl). lia. Qed.

Lemma holds_initial : holds initial_globals [].
Proof. repeat split. unfold INPUT_BUFFER_SIZE. simpl. lia. Qed.

Lemma holds_reset g : holds (set_line g (memset0 INPUT_BUFFER_SIZE) 0) [].
Proof. repeat split. unfold INPUT_BUFFER_SIZE. simpl. lia. Qed.

(** The store [in_str_buff[in_buff_idx++] = c] in a state that holds [l]. *)
Lemma store_holds g l c :
  holds g l ->
  <[in_buff_idx g := c]> (in_str_buff g)
  = (l ++ [c]) ++ replicate (INPUT_BUFFER_SIZE - S (length l)) NUL.
Proof.
  intros (Hb & Hi & Hl). rewrite Hb, Hi.
  rewrite insert_app_r_alt by lia. rewrite Nat.sub_diag.
  replace (INPUT_BUFFER_SIZE - length l) with (S (INPUT_BUFFER_SIZE - S (length l))) by lia.
  simpl. rewrite <- app_assoc. reflexivity.
Qed.

Lemma holds_with_line g l : length l < INPUT_BUFFER_SIZE -> holds (with_line g l) l.
Proof. intros H. repeat split. exact H. Qed.

Lemma with_line_holds g l : holds g l -> with_line g l = g.
Proof.
  intros (Hb & Hi & _). unfold with_line. rewrite <- Hb, <- Hi.
  destruct g; reflexivity.
Qed.

Lemma with_line_snoc_eq g l c :
  set_line g ((l ++ [c]) ++ replicate (INPUT_BUFFER_SIZE - S (length l)) NUL) (S (length l))
  = with_line g (l ++ [c]).
Proof.
  unfold with_line. rewrite length_app. simpl. rewrite Nat.add_1_r. reflexivity.
Qed.

Section Accumulator.

Variable Invoke : list Z -> option Z.

(** A byte other than the terminator is appended while there is room. *)
Lemma loop_append g l c :
  holds g l -> Ascii.eqb c CR = false -> S (length l) < INPUT_BUFFER_SIZE ->
  loop Invoke g c = ([print_char c], Done (with_line g (l ++ [c]))).
Proof.
  intros H Hc Hroom. rewrite <- with_line_snoc_eq. unfold loop.
  rewrite (holds_length _ _ H), (store_holds g l c H).
  destruct H as (Hb & Hi & Hl).
  assert ((in_buff_idx g <? INPUT_BUFFER_SIZE) = true) as -> by (apply Nat.ltb_lt; lia).
  rewrite Hc. cbn [negb in_buff_idx set_line].
  assert ((INPUT_BUFFER_SIZE <=? S (in_buff_idx g)) = false) as ->
    by (apply Nat.leb_gt; lia).
  rewrite Hi. reflexivity.
Qed.

(** The byte that fills the buffer clears it. *)
Lemma loop_overflow g l c :
  holds g l -> Ascii.eqb c CR = false -> S (length l) = INPUT_BUFFER_SIZE ->
  loop Invoke g c = ([print_char c], Done (with_line g [])).
Proof.
  intros H Hc Hfull. unfold loop.
  rewrite (holds_length _ _ H). destruct H as (Hb & Hi & Hl).
  assert ((in_buff_idx g <? INPUT_BUFFER_SIZE) = true) as -> by (apply Nat.ltb_lt; lia).
  rewrite Hc. cbn [negb in_buff_idx set_line].
  assert ((INPUT_BUFFER_SIZE <=? S (in_buff_idx g)) = true) as ->
    by (apply Nat.leb_le; lia).
  reflexivity.
Qed.

(** The terminator is stored like any other byte, then the buffer is
    handed to [process_input]. *)
Lemma loop_terminator g l :
  holds g l ->
  loop Invoke g CR
  = after_line (process_input Invoke (with_line g (l ++ [CR]))).
Proof.
  intros H. rewrite <- with_line_snoc_eq. unfold loop.
  rewrite (holds_length _ _ H).
  rewrite (store_holds g l CR H). destruct H as (Hb & Hi & Hl).
  assert ((in_buff_idx g <? INPUT_BUFFER_SIZE) = true) as -> by (apply Nat.ltb_lt; lia).
  rewrite Hi. cbn [negb]. change (Ascii.eqb CR CR) with true. cbv iota.
  unfold after_line.
  destruct (process_input Invoke _) as [evs [g2|]]; reflexivity.
Qed.

Lemma run_app g a b :
  run Invoke g (a ++ b)
  = match run Invoke g a with
    | (evs, Done g') => let '(evs', r) := run Invoke g' b in (evs ++ evs', r)
    | (evs, Undefined) => (evs, Undefined)
    end.
Proof.
  revert g. induction a as [|c a IH]; intros g; simpl.
  - destruct (run Invoke g b); reflexivity.
  - destruct (loop Invoke g c) as [evs [g'|]]; [|reflexivity].
    rewrite IH. destruct (run Invoke g' a) as [evs1 [g1|]]; [|reflexivity].
    destruct (run Invoke g1 b) as [evs2 r]. rewrite app_assoc. reflexivity.
Qed.

Lemma run_single g c : run Invoke g [c] =
  match loop Invoke g c with
  | (evs, Done g') => (evs, Done g')
  | (evs, Undefined) => (evs, Undefined)
  end.
Proof.
  simpl. destruct (loop Invoke g c) as [evs [g'|]]; [|reflexivity].
  rewrite app_nil_r. reflexivity.
Qed.

(** Bytes without a terminator are echoed and appended while they fit. *)
Lemma run_append bytes :
  forall g l,
    holds g l -> cr_free bytes = true ->
    length l + length bytes < INPUT_BUFFER_SIZE ->
    run Invoke g bytes = (map print_char bytes, Done (with_line g (l ++ bytes))).
Proof.
  induction bytes as [|c bytes IH]; intros g l H Hcr Hlen.
  - simpl. rewrite app_nil_r, (with_line_holds _ _ H). reflexivity.
  - simpl in Hcr, Hlen. apply andb_prop in Hcr as [Hc Hcr].
    apply negb_true_iff in Hc.
    cbn [run]. rewrite (loop_append g l c H Hc) by lia.
    rewrite (IH (with_line g (l ++ [c])) (l ++ [c])); cycle 1.
    + apply holds_with_line. rewrite length_app. simpl. lia.
    + exact Hcr.
    + rewrite length_app. simpl. lia.
    + rewrite <- app_assoc. reflexivity.
Qed.

(** Sixty-four bytes without a terminator leave an empty buffer behind. *)
Lemma run_block junk g :
  holds g [] -> cr_free junk = true -> length junk = INPUT_BUFFER_SIZE ->
  run Invoke g junk = (map print_char junk, Done g).
Proof.
  intros H Hcr Hlen.
  destruct (exists_last (l := junk)) as (front & c & ->).
  { intros ->. discriminate Hlen. }
  rewrite length_app in Hlen. simpl in Hlen.
  unfold cr_free in Hcr. rewrite forallb_app in Hcr.
  apply andb_prop in Hcr as [Hfront Hc]. simpl in Hc.
  rewrite andb_true_r in Hc. apply negb_true_iff in Hc.
  rewrite run_app, (run_append front g [] H Hfront) by (simpl; lia).
  rewrite run_single. simpl app.
  rewrite (loop_overflow _ front c) by
    (try apply holds_with_line; try exact Hc; lia).
  rewrite map_app. simpl. f_equal. f_equal.
  rewrite <- (with_line_holds g [] H) at 2. reflexivity.
Qed.

(** Any number of full blocks of 64 bytes is discarded the same way. *)
Lemma run_blocks k :
  forall junk g,
    holds g [] -> cr_free junk = true -> length junk = k * INPUT_BUFFER_SIZE ->
    run Invoke g junk = (map print_char junk, Done g).
Proof.
  induction k as [|k IH]; intros junk g H Hcr Hlen.
  - destruct junk; [reflexivity | discriminate Hlen].
  - rewrite <- (take_drop INPUT_BUFFER_SIZE junk) in Hcr |- *.
    unfold cr_free in Hcr. rewrite forallb_app in Hcr.
    apply andb_prop in Hcr as [Hcr1 Hcr2].
    rewrite run_app, (run_block _ g H Hcr1); cycle 1.
    { rewrite length_take. unfold INPUT_BUFFER_SIZE in *. lia. }
    rewrite (IH _ g H Hcr2); cycle 1.
    { rewrite length_drop. unfold INPUT_BUFFER_SIZE in *. lia. }
    rewrite map_app. reflexivity.
Qed.

(** After [k] full blocks the buffer holds what came after them. *)
Lemma run_blocks_rest k junk rest g :
  holds g [] -> cr_free (junk ++ rest) = true ->
  length junk = k * INPUT_BUFFER_SIZE -> length rest < INPUT_BUFFER_SIZE ->
  run Invoke g (junk ++ rest)
  = (map print_char (junk ++ rest), Done (with_line g rest)).
Proof.
  intros H Hcr Hlen Hrest.
  unfold cr_free in Hcr. rewrite forallb_app in Hcr.
  apply andb_prop in Hcr as [Hcr1 Hcr2].
  rewrite run_app, (run_blocks k junk g H Hcr1 Hlen).
  rewrite (run_append rest g [] H Hcr2) by (simpl; lia).
  rewrite map_app. reflexivity.
Qed.

(** A line shorter than the buffer, then the terminator. *)
Lemma run_line g l :
  holds g [] -> cr_free l = true -> length l < INPUT_BUFFER_SIZE ->
  run Invoke g (l ++ [CR])
  = let '(evs, r) := after_line (process_input Invoke (with_line g (l ++ [CR]))) in
    (map print_char l ++ evs, r).
Proof.
  intros H Hcr Hlen.
  rewrite run_app, (run_append l g [] H Hcr) by (simpl; lia).
  rewrite run_single. simpl app.
  rewrite (loop_terminator _ l) by (apply holds_with_line; exact Hlen).
  change (with_line (with_line g l) (l ++ [CR])) with (with_line g (l ++ [CR])).
  destruct (after_line _) as [evs [g'|]]; reflexivity.
Qed.

End Accumulator.

(** ** [process_input] in terms of tokens *)

Lemma process_input_tokens Invoke g in_str :
  c_str (in_str_buff g) = Some in_str ->
  process_input Invoke g
  = let g' := set_line
                (set_input_array g
                   (store_from 0 (map atoi (take INT_ARRAY_SIZE (tokens in_str)))
                      (input_array g)))
                (strtok_writes (S (min INT_ARRAY_SIZE (length (tokens in_str)))) in_str
                   ++ drop (length in_str) (in_str_buff g))
                (in_buff_idx g) in
    if length (tokens in_str) <? INT_ARRAY_SIZE
    then ([println error_arity], Done g')
    else returning g' (measure_and_run_model Invoke g').
Proof.
  intros Hs. unfold process_input. rewrite Hs, string_to_array_spec.
  cbv zeta.
  destruct (length (tokens in_str) <? INT_ARRAY_SIZE) eqn:E.
  - apply Nat.ltb_lt in E.
    assert ((min INT_ARRAY_SIZE (length (tokens in_str)) =? INT_ARRAY_SIZE) = false) as ->
      by (apply Nat.eqb_neq; lia).
    reflexivity.
  - apply Nat.ltb_ge in E.
    assert ((min INT_ARRAY_SIZE (length (tokens in_str)) =? INT_ARRAY_SIZE) = true) as ->
      by (apply Nat.eqb_eq; lia).
    reflexivity.
Qed.

Lemma with_line_forgets g s a :
  with_line (set_input_array (with_line g s) a) [] = with_line (set_input_array g a) [].
Proof. destruct g; reflexivity. Qed.

(** [measure_and_run_model] does not read the line buffer. *)
Lemma measure_and_run_model_set_line Invoke g buf idx :
  measure_and_run_model Invoke (set_line g buf idx) = measure_and_run_model Invoke g.
Proof. reflexivity. Qed.

(** Once [loop] has cleared the buffer, what is left of [process_input] is
    its output and the values in [input_array]. *)
Lemma after_line_process_input Invoke g in_str :
  c_str (in_str_buff g) = Some in_str ->
  after_line (process_input Invoke g)
  = let g' := set_input_array g
                (store_from 0 (map atoi (take INT_ARRAY_SIZE (tokens in_str)))
                   (input_array g)) in
    after_line (if length (tokens in_str) <? INT_ARRAY_SIZE
                then ([println error_arity], Done g')
                else returning g' (measure_and_run_model Invoke g')).
Proof.
  intros Hs. rewrite (process_input_tokens Invoke g in_str Hs). cbv zeta.
  destruct (length (tokens in_str) <? INT_ARRAY_SIZE); [reflexivity|].
  rewrite measure_and_run_model_set_line.
  destruct (measure_and_run_model Invoke _) as [evs [[]|]]; reflexivity.
Qed.

(** The string [process_input] reads when the buffer holds [s]. *)
Lemma c_str_with_line g s :
  length s < INPUT_BUFFER_SIZE ->
  c_str (in_str_buff (with_line g s)) = Some (until_nul s).
Proof.
  intros H. cbn [with_line set_line in_str_buff].
  replace (INPUT_BUFFER_SIZE - length s) with (S (INPUT_BUFFER_SIZE - S (length s))) by lia.
  apply c_str_app_nul.
Qed.

Lemma c_str_with_line_full g s :
  length s = INPUT_BUFFER_SIZE -> nul_free s = true ->
  c_str (in_str_buff (with_line g s)) = None.
Proof.
  intros H Hn. cbn [with_line set_line in_str_buff].
  rewrite H, Nat.sub_diag. simpl. rewrite app_nil_r. apply c_str_nul_free. exact Hn.
Qed.

Lemma holds_ready : holds ready_globals [].
Proof. repeat split. unfold INPUT_BUFFER_SIZE. simpl. lia. Qed.

(** ** Arity check *)

(** C1 (amended).  A line of at most 62 bytes is handed to the tokenizer
    with its terminator.  When it has fewer than seven tokens the sketch
    echoes it, prints the arity error and nothing else: no store into the
    input tensor, no [Invoke].  When it has seven tokens or more it is not
    rejected: the values of the first seven tokens go to
    [measure_and_run_model] and the remaining tokens are ignored. *)
Theorem arity_check Invoke g l :
  holds g [] -> cr_free l = true -> S (length l) < INPUT_BUFFER_SIZE ->
  let in_str := until_nul (l ++ [CR]) in
  (length (tokens in_str) < INT_ARRAY_SIZE ->
   exists g',
     run Invoke g (l ++ [CR])
     = (map print_char l ++ [print_char CR; println_empty; println error_arity],
        Done g')
     /\ holds g' [])
  /\ (INT_ARRAY_SIZE <= length (tokens in_str) ->
      length (input_array g) = INT_ARRAY_SIZE ->
      let g' := set_input_array (with_line g (l ++ [CR]))
                  (map atoi (take INT_ARRAY_SIZE (tokens in_str))) in
      run Invoke g (l ++ [CR])
      = let '(evs, r) := after_line (returning g' (measure_and_run_model Invoke g')) in
        (map print_char l ++ evs, r)).
Proof.
  intros H Hcr Hlen in_str.
  assert (Hs : c_str (in_str_buff (with_line g (l ++ [CR]))) = Some in_str).
  { apply c_str_with_line. rewrite length_app. simpl. lia. }
  rewrite (run_line Invoke g l H Hcr) by lia.
  rewrite (after_line_process_input Invoke _ _ Hs). cbv zeta.
  split.
  - intros Hfew. apply Nat.ltb_lt in Hfew. rewrite Hfew.
    eexists. split; [reflexivity|]. apply holds_reset.
  - intros Hmany Harr. apply Nat.ltb_ge in Hmany. rewrite Hmany.
    cbn [with_line set_line input_array].
    rewrite store_from_all; [reflexivity|].
    rewrite length_map, length_take, Harr. apply Nat.ltb_ge in Hmany. lia.
Qed.

Lemma arity_check_witness :
  exists g',
    run echo_Invoke ready_globals (line_of "1,2,3")
    = (map print_char (chars "1,2,3")
         ++ [print_char CR; println_empty; println error_arity], Done g')
    /\ holds g' [].
Proof.
  apply (arity_check echo_Invoke ready_globals (chars "1,2,3")).
  - exact holds_ready.
  - reflexivity.
  - unfold INPUT_BUFFER_SIZE. simpl. lia.
  - unfold INT_ARRAY_SIZE. simpl. lia.
Defined.

(** C1 (as stated) fails: a line with eight integers holds more than seven
    tokens, yet it is not rejected; the first seven are quantised and
    [Invoke] is called. *)
Lemma eight_integers_accepted :
  length (tokens (line_of "1,2,3,4,5,6,7,8")) = 8
  /\ filter is_inference
       (run echo_Invoke ready_globals (line_of "1,2,3,4,5,6,7,8")).1
     = [input_store 0 1; input_store 1 2; input_store 2 3; input_store 3 4;
        input_store 4 5; input_store 5 6; input_store 6 7; Invoke_call]
  /\ filter (is_println error_arity)
       (run echo_Invoke ready_globals (line_of "1,2,3,4,5,6,7,8")).1 = [].
Proof. vm_compute. repeat split. Qed.

(** ** Empty fields *)

Lemma fields_app_comma a b : fields (a ++ comma :: b) = fields a ++ fields b.
Proof.
  induction a as [|c a IH]; [reflexivity|].
  simpl. rewrite IH. destruct (Ascii.eqb c comma); [reflexivity|].
  destruct (fields_cons a) as (f & fs & ->). reflexivity.
Qed.

Lemma tokens_app_comma a b : tokens (a ++ comma :: b) = tokens a ++ tokens b.
Proof. unfold tokens. rewrite fields_app_comma. apply filter_app. Qed.

(** The fields of a string that ends with a character other than the
    delimiter: that character belongs to the last field. *)
Lemma fields_snoc l c :
  Ascii.eqb c comma = false ->
  fields (l ++ [c]) = removelast (fields l) ++ [List.last (fields l) [] ++ [c]].
Proof.
  intros Hc. induction l as [|d l IH]; simpl.
  - rewrite Hc. reflexivity.
  - rewrite IH. destruct (fields_cons l) as (f & fs & E). rewrite E.
    destruct (Ascii.eqb d comma); destruct fs as [|f' fs]; reflexivity.
Qed.

Lemma tokens_snoc l c :
  Ascii.eqb c comma = false ->
  tokens (l ++ [c])
  = filter nonempty (removelast (fields l)) ++ [List.last (fields l) [] ++ [c]].
Proof.
  intros Hc. unfold tokens. rewrite (fields_snoc l c Hc), filter_app.
  destruct (List.last (fields l) []); reflexivity.
Qed.

(** C10 (amended).  [string_to_array] counts and converts the non-empty
    comma-separated fields of the string it is given, up to seven of them:
    an empty field in front, between two commas or at the end of that
    string adds no token and no zero.  The string the sketch hands over
    ends with the terminator, so there the last field is never empty: it
    is a token even when the line ends with a comma, and its value is then
    0.  So the lines ["1,,2,3,4,5,6"] and ["1,,2,3,4,5,6,7"] give six
    values and the arity error, respectively seven values that are passed
    on, and a line that ends with a comma gives one value more than it has
    non-empty fields. *)
Theorem empty_fields_skipped :
  (forall in_str int_array,
      string_to_array in_str int_array
      = (store_from 0 (map atoi (take INT_ARRAY_SIZE (filter nonempty (fields in_str))))
           int_array,
         min INT_ARRAY_SIZE (length (filter nonempty (fields in_str)))))
  /\ (forall s, tokens (comma :: s) = tokens s)
  /\ (forall a b, tokens (a ++ comma :: comma :: b) = tokens (a ++ comma :: b))
  /\ (forall s, tokens (s ++ [comma]) = tokens s)
  /\ (forall l,
         tokens (l ++ [CR])
         = filter nonempty (removelast (fields l)) ++ [List.last (fields l) [] ++ [CR]])
  /\ (forall l, tokens ((l ++ [comma]) ++ [CR]) = tokens l ++ [[CR]])
  /\ atoi [CR] = 0%Z
  /\ (forall Invoke g,
         holds g [] ->
         run Invoke g (line_of "1,,2,3,4,5,6")
         = (map print_char (chars "1,,2,3,4,5,6")
              ++ [print_char CR; println_empty; println error_arity],
            Done (with_line
                    (set_input_array g
                       (store_from 0 [1; 2; 3; 4; 5; 6]%Z (input_array g))) [])))
  /\ (forall Invoke g,
         holds g [] ->
         let g' := set_input_array (with_line g (line_of "1,,2,3,4,5,6,7"))
                     (store_from 0 [1; 2; 3; 4; 5; 6; 7]%Z (input_array g)) in
         run Invoke g (line_of "1,,2,3,4,5,6,7")
         = let '(evs, r) := after_line (returning g' (measure_and_run_model Invoke g')) in
           (map print_char (chars "1,,2,3,4,5,6,7") ++ evs, r)).
Proof.
  split; [exact string_to_array_spec|].
  split; [exact tokens_comma|].
  split.
  { intros a b. rewrite !tokens_app_comma. reflexivity. }
  split.
  { intros s. rewrite tokens_app_comma. apply app_nil_r. }
  split.
  { intros l. apply tokens_snoc. reflexivity. }
  split.
  { intros l. rewrite <- app_assoc. cbn [app]. rewrite tokens_app_comma. reflexivity. }
  split; [reflexivity|].
  split.
  - intros Invoke g H.
    assert (Hs : c_str (in_str_buff (with_line g (line_of "1,,2,3,4,5,6")))
                 = Some (line_of "1,,2,3,4,5,6")).
    { apply (c_str_with_line g (line_of "1,,2,3,4,5,6")).
      unfold INPUT_BUFFER_SIZE. simpl. lia. }
    unfold line_of at 1.
    rewrite (run_line Invoke g (chars "1,,2,3,4,5,6") H eq_refl)
      by (unfold INPUT_BUFFER_SIZE; simpl; lia).
    change (chars "1,,2,3,4,5,6" ++ [CR]) with (line_of "1,,2,3,4,5,6").
    rewrite (after_line_process_input Invoke _ _ Hs).
    cbv zeta.
    change (length (tokens (line_of "1,,2,3,4,5,6")) <? INT_ARRAY_SIZE) with true.
    cbn [after_line]. rewrite with_line_forgets. reflexivity.
  - intros Invoke g H g'.
    assert (Hs : c_str (in_str_buff (with_line g (line_of "1,,2,3,4,5,6,7")))
                 = Some (line_of "1,,2,3,4,5,6,7")).
    { apply (c_str_with_line g (line_of "1,,2,3,4,5,6,7")).
      unfold INPUT_BUFFER_SIZE. simpl. lia. }
    unfold line_of at 1.
    rewrite (run_line Invoke g (chars "1,,2,3,4,5,6,7") H eq_refl)
      by (unfold INPUT_BUFFER_SIZE; simpl; lia).
    change (chars "1,,2,3,4,5,6,7" ++ [CR]) with (line_of "1,,2,3,4,5,6,7").
    rewrite (after_line_process_input Invoke _ _ Hs). reflexivity.
Qed.

Lemma empty_fields_skipped_witness :
  run echo_Invoke ready_globals (line_of "1,,2,3,4,5,6")
  = (map print_char (chars "1,,2,3,4,5,6")
       ++ [print_char CR; println_empty; println error_arity],
     Done (with_line
             (set_input_array ready_globals
                (store_from 0 [1; 2; 3; 4; 5; 6]%Z (input_array ready_globals))) [])).
Proof.
  destruct empty_fields_skipped as (_ & _ & _ & _ & _ & _ & _ & Hsix & _).
  apply (Hsix echo_Invoke ready_globals). exact holds_ready.
Defined.

(** C10 (as stated) fails for a trailing comma: the text ["6,5,4,3,2,1,"]
    has six non-empty fields, but in the sketch the field after its last
    comma holds the terminator; it is the seventh token, its value is 0,
    and the line is not rejected but given to the model. *)
Lemma trailing_comma_adds_token :
  length (tokens (chars "6,5,4,3,2,1,")) = 6
  /\ tokens (line_of "6,5,4,3,2,1,")
     = [chars "6"; chars "5"; chars "4"; chars "3"; chars "2"; chars "1"; [CR]]
  /\ string_to_array (line_of "6,5,4,3,2,1,") (replicate 7 9%Z)
     = ([6; 5; 4; 3; 2; 1; 0]%Z, 7)
  /\ filter (is_println error_arity)
       (run echo_Invoke ready_globals (line_of "6,5,4,3,2,1,")).1 = []
  /\ filter is_inference
       (run echo_Invoke ready_globals (line_of "6,5,4,3,2,1,")).1
     = [input_store 0 6; input_store 1 5; input_store 2 4; input_store 3 3;
        input_store 4 2; input_store 5 1; input_store 6 0; Invoke_call].
Proof. vm_compute. repeat split. Qed.

(** ** Token values *)

Lemma wrap_int_fits z : fits_int z = true -> wrap_int z = z.
Proof.
  unfold fits_int, wrap_int, INT_MIN, INT_MAX. intros [H1 H2]%andb_prop.
  apply Z.leb_le in H1. apply Z.leb_le in H2.
  rewrite Z.mod_small; lia.
Qed.

Lemma wrap_int_range z : (INT_MIN <= wrap_int z <= INT_MAX)%Z.
Proof.
  unfold wrap_int, INT_MIN, INT_MAX.
  pose proof (Z.mod_pos_bound (z + 2 ^ 31) (2 ^ 32) ltac:(lia)). lia.
Qed.

Lemma digits_stop acc s : no_digit s -> digits acc s = acc.
Proof. destruct s as [|c s]; simpl; [reflexivity|]. intros ->. reflexivity. Qed.

Lemma digits_prefix ds : forall acc rest,
  forallb isdigit ds = true -> no_digit rest ->
  digits acc (ds ++ rest) = digits acc ds.
Proof.
  induction ds as [|d ds IH]; intros acc rest Hds Hrest; simpl.
  - apply digits_stop. exact Hrest.
  - simpl in Hds. apply andb_prop in Hds as [Hd Hds]. rewrite Hd.
    apply IH; assumption.
Qed.

(** The accumulation of [atoi] computes the positional value. *)
Lemma digits_decimal ds : forall acc,
  forallb isdigit ds = true ->
  digits acc ds = (acc * 10 ^ Z.of_nat (length ds) + decimal ds)%Z.
Proof.
  induction ds as [|d ds IH]; intros acc Hds.
  - simpl. lia.
  - simpl in Hds. apply andb_prop in Hds as [Hd Hds].
    cbn [digits decimal length]. rewrite Hd, (IH _ Hds).
    rewrite Nat2Z.inj_succ, Z.pow_succ_r by lia. ring.
Qed.

Lemma isdigit_not_space d : isdigit d = true -> isspace d = false.
Proof.
  unfold isdigit, isspace. intros [H1 H2]%andb_prop.
  apply Nat.leb_le in H1. apply Nat.leb_le in H2.
  apply orb_false_iff. split.
  - apply Nat.eqb_neq. lia.
  - apply andb_false_iff. right. apply Nat.leb_gt. lia.
Qed.

Lemma digit_not_sign d :
  isdigit d = true -> Ascii.eqb d "-" = false /\ Ascii.eqb d "+" = false.
Proof.
  intros H. split; apply Ascii.eqb_neq; intros ->; discriminate H.
Qed.

Lemma sign_not_space c : is_sign [c] = true -> isspace c = false.
Proof.
  cbn [is_sign]. intros [H|H]%orb_prop; apply Ascii.eqb_eq in H; subst c; reflexivity.
Qed.

Lemma skip_space_app ws s : forallb isspace ws = true -> skip_space (ws ++ s) = skip_space s.
Proof.
  induction ws as [|w ws IH]; [reflexivity|]. simpl.
  intros [Hw Hws]%andb_prop. rewrite Hw. exact (IH Hws).
Qed.

Lemma skip_space_head c s : isspace c = false -> skip_space (c :: s) = c :: s.
Proof. intros H. simpl. rewrite H. reflexivity. Qed.

(** The number written at the beginning of a token. *)
Lemma signed_digits_number ws sg d ds rest :
  forallb isspace ws = true -> is_sign sg = true ->
  forallb isdigit (d :: ds) = true -> no_digit rest ->
  signed_digits (ws ++ sg ++ (d :: ds) ++ rest)
  = (sign_value sg * decimal (d :: ds))%Z.
Proof.
  intros Hws Hsg Hds Hrest. unfold signed_digits.
  rewrite (skip_space_app ws _ Hws).
  pose proof Hds as Hd. simpl in Hd. apply andb_prop in Hd as [Hd _].
  pose proof (digits_prefix (d :: ds) 0%Z rest Hds Hrest) as Hp.
  rewrite (digits_decimal (d :: ds) 0%Z Hds) in Hp.
  destruct sg as [|c [|c' sg]]; [| |discriminate Hsg].
  - cbn [app] in *. rewrite (skip_space_head d _ (isdigit_not_space d Hd)).
    destruct (digit_not_sign d Hd) as [-> ->]. rewrite Hp.
    cbn [sign_value]. lia.
  - cbn [app] in *. rewrite (skip_space_head c _ (sign_not_space c Hsg)).
    cbn [is_sign sign_value] in *.
    destruct (Ascii.eqb c "-"); [rewrite Hp; lia|].
    cbn [orb] in Hsg. rewrite Hsg, Hp. lia.
Qed.

Lemma signed_digits_none ws sg rest :
  forallb isspace ws = true -> is_sign sg = true ->
  no_digit rest -> (sg = [] -> no_number rest) ->
  signed_digits (ws ++ sg ++ rest) = 0%Z.
Proof.
  intros Hws Hsg Hrest Hnone. unfold signed_digits.
  rewrite (skip_space_app ws _ Hws).
  destruct sg as [|c [|c' sg]]; [| |discriminate Hsg].
  - cbn [app]. specialize (Hnone eq_refl).
    destruct rest as [|c r]; [reflexivity|].
    destruct Hnone as (Hd & Hsp & Hsign). cbn [is_sign] in Hsign.
    apply orb_false_iff in Hsign as [Hm Hp].
    rewrite (skip_space_head c r Hsp), Hm, Hp. simpl. rewrite Hd. reflexivity.
  - cbn [app]. rewrite (skip_space_head c _ (sign_not_space c Hsg)).
    cbn [is_sign] in Hsg. rewrite (digits_stop 0%Z rest Hrest).
    destruct (Ascii.eqb c "-"); [reflexivity|].
    cbn [orb] in Hsg. rewrite Hsg. reflexivity.
Qed.

(** C8 (amended).  A token is never a reason to fail the line.  [atoi]
    reads the beginning of the token: white space, at most one sign, then
    decimal digits.  When there is a digit, the value is the number that
    the digits write, with its sign, whatever follows the digits, as long
    as an [int] can hold it; when there is none, as in ["x"], the value
    is 0.  The value is an [int] in every case, and the number of values
    depends on the number of tokens only.  The line ["1,2,x,4,5,6,7"] with
    its terminator gives the seven values 1,2,0,4,5,6,7, which are passed
    on to [measure_and_run_model]. *)
Theorem token_values :
  (forall ws sg d ds rest,
      forallb isspace ws = true -> is_sign sg = true ->
      forallb isdigit (d :: ds) = true -> no_digit rest ->
      fits_int (sign_value sg * decimal (d :: ds)) = true ->
      atoi (ws ++ sg ++ (d :: ds) ++ rest) = (sign_value sg * decimal (d :: ds))%Z)
  /\ (forall ws sg rest,
         forallb isspace ws = true -> is_sign sg = true ->
         no_digit rest -> (sg = [] -> no_number rest) ->
         atoi (ws ++ sg ++ rest) = 0%Z)
  /\ (forall tok, (INT_MIN <= atoi tok <= INT_MAX)%Z)
  /\ (forall in_str int_array,
         (string_to_array in_str int_array).2
         = min INT_ARRAY_SIZE (length (tokens in_str)))
  /\ (forall Invoke g,
         holds g [] -> length (input_array g) = INT_ARRAY_SIZE ->
         let g' := set_input_array (with_line g (line_of "1,2,x,4,5,6,7"))
                     [1; 2; 0; 4; 5; 6; 7]%Z in
         tokens (line_of "1,2,x,4,5,6,7")
         = [chars "1"; chars "2"; chars "x"; chars "4"; chars "5"; chars "6";
            line_of "7"]
         /\ string_to_array (line_of "1,2,x,4,5,6,7") (input_array g)
            = ([1; 2; 0; 4; 5; 6; 7]%Z, 7)
         /\ run Invoke g (line_of "1,2,x,4,5,6,7")
            = let '(evs, r) :=
                after_line (returning g' (measure_and_run_model Invoke g')) in
              (map print_char (chars "1,2,x,4,5,6,7") ++ evs, r)).
Proof.
  split.
  { intros ws sg d ds rest Hws Hsg Hds Hrest Hfit. unfold atoi.
    rewrite (signed_digits_number ws sg d ds rest Hws Hsg Hds Hrest).
    apply wrap_int_fits. exact Hfit. }
  split.
  { intros ws sg rest Hws Hsg Hrest Hnone. unfold atoi.
    rewrite (signed_digits_none ws sg rest Hws Hsg Hrest Hnone). reflexivity. }
  split; [intros tok; apply wrap_int_range|].
  split; [intros in_str int_array; rewrite string_to_array_spec; reflexivity|].
  intros Invoke g H Harr g'.
  assert (Hs : c_str (in_str_buff (with_line g (line_of "1,2,x,4,5,6,7")))
               = Some (line_of "1,2,x,4,5,6,7")).
  { apply (c_str_with_line g (line_of "1,2,x,4,5,6,7")).
    unfold INPUT_BUFFER_SIZE. simpl. lia. }
  assert (Hv : store_from 0 [1; 2; 0; 4; 5; 6; 7]%Z (input_array g)
               = [1; 2; 0; 4; 5; 6; 7]%Z).
  { apply store_from_all. rewrite Harr. reflexivity. }
  split; [reflexivity|]. split.
  - rewrite string_to_array_spec. f_equal. exact Hv.
  - unfold line_of at 1.
    rewrite (run_line Invoke g (chars "1,2,x,4,5,6,7") H eq_refl)
      by (unfold INPUT_BUFFER_SIZE; simpl; lia).
    change (chars "1,2,x,4,5,6,7" ++ [CR]) with (line_of "1,2,x,4,5,6,7").
    rewrite (after_line_process_input Invoke _ _ Hs). cbv zeta.
    change (input_array (with_line g (line_of "1,2,x,4,5,6,7"))) with (input_array g).
    change (map atoi (take INT_ARRAY_SIZE (tokens (line_of "1,2,x,4,5,6,7"))))
      with [1; 2; 0; 4; 5; 6; 7]%Z.
    rewrite Hv. reflexivity.
Qed.

Lemma token_values_witness :
  atoi (chars " -12ab") = (-12)%Z.
Proof.
  apply (proj1 token_values [" "%char] ["-"%char] "1"%char ["2"%char] (chars "ab"));
    reflexivity.
Defined.

(** C8 (as stated) fails: ["2x"] is not a decimal integer, yet its value is
    2, not 0; the same holds for the last token of every line, which ends
    with the terminator. *)
Lemma digit_prefix_not_zero :
  valid_integer (chars "2x") = false
  /\ atoi (chars "2x") = 2%Z
  /\ string_to_array (line_of "1,2x,3,4,5,6,7") (replicate 7 0%Z)
     = ([1; 2; 3; 4; 5; 6; 7]%Z, 7)
  /\ valid_integer (line_of "7") = false
  /\ atoi (line_of "7") = 7%Z.
Proof. vm_compute. repeat split. Qed.

(** ** Complete lines *)

Lemma after_line_done r evs g' :
  after_line r = (evs, Done g') ->
  in_str_buff g' = memset0 INPUT_BUFFER_SIZE /\ in_buff_idx g' = 0.
Proof.
  destruct r as [evs0 [g2|]]; simpl; [|discriminate].
  intros [= _ <-]. split; reflexivity.
Qed.

(** A terminator that arrives as the 64th byte fills the last cell: the
    buffer then holds no NUL, and the string [strtok] is given runs past
    the end of the array. *)
Lemma terminator_in_last_cell Invoke g l :
  holds g l -> S (length l) = INPUT_BUFFER_SIZE -> nul_free l = true ->
  loop Invoke g CR = ([print_char CR; println_empty], Undefined).
Proof.
  intros H Hfull Hnul. rewrite (loop_terminator Invoke g l H).
  unfold process_input. rewrite c_str_with_line_full; [reflexivity| |].
  - rewrite length_app. simpl. lia.
  - unfold nul_free in *. rewrite forallb_app, Hnul. reflexivity.
Qed.

(** C6 (amended).  When the terminator arrives the buffer holds the bytes
    received since the last reset followed by the terminator itself, which
    was stored like any other byte: for a line of at most 62 bytes without
    NUL the string handed to the tokenizer is the line and its terminator.
    Once [process_input] has returned, the buffer is all zero and the
    cursor is 0. *)
Theorem line_complete Invoke g l :
  holds g [] -> cr_free l = true -> nul_free l = true ->
  S (length l) < INPUT_BUFFER_SIZE ->
  let g1 := with_line g (l ++ [CR]) in
  c_str (in_str_buff g1) = Some (l ++ [CR])
  /\ run Invoke g (l ++ [CR])
     = (let '(evs, r) := after_line (process_input Invoke g1) in
        (map print_char l ++ evs, r))
  /\ (forall evs g',
         run Invoke g (l ++ [CR]) = (evs, Done g') ->
         in_str_buff g' = memset0 INPUT_BUFFER_SIZE /\ in_buff_idx g' = 0).
Proof.
  intros H Hcr Hnul Hlen g1.
  assert (Hrun := run_line Invoke g l H Hcr ltac:(lia)).
  split; [|split].
  - unfold g1. rewrite c_str_with_line by (rewrite length_app; simpl; lia).
    f_equal. apply until_nul_nul_free.
    unfold nul_free in *. rewrite forallb_app, Hnul. reflexivity.
  - exact Hrun.
  - intros evs g' Hdone. rewrite Hrun in Hdone.
    destruct (after_line _) as [evs1 r] eqn:E.
    injection Hdone as _ ->. exact (after_line_done _ _ _ E).
Qed.

Lemma line_complete_witness :
  c_str (in_str_buff (with_line ready_globals (line_of "1,2")))
  = Some (line_of "1,2").
Proof.
  apply (line_complete echo_Invoke ready_globals (chars "1,2")).
  - exact holds_ready.
  - reflexivity.
  - reflexivity.
  - unfold INPUT_BUFFER_SIZE. simpl. lia.
Defined.

(** C6 (as stated) fails: the string handed to the tokenizer for the line
    ["1"] is ["1"] with the terminator byte, not ["1"].  The difference
    shows: without its terminator ["1,2,3,4,5,6,"] has six tokens, but the
    sketch finds a seventh one, the terminator, converts it to 0 and runs
    the model. *)
Lemma terminator_reaches_tokenizer :
  run echo_Invoke ready_globals (chars "1")
  = ([print_char "1"], Done (with_line ready_globals (chars "1")))
  /\ loop echo_Invoke (with_line ready_globals (chars "1")) CR
     = after_line (process_input echo_Invoke (with_line ready_globals (line_of "1")))
  /\ c_str (in_str_buff (with_line ready_globals (line_of "1"))) = Some (line_of "1")
  /\ line_of "1" <> chars "1"
  /\ (string_to_array (chars "1,2,3,4,5,6,") (replicate 7 0%Z)).2 = 6
  /\ filter is_inference
       (run echo_Invoke ready_globals (line_of "1,2,3,4,5,6,")).1
     = [input_store 0 1; input_store 1 2; input_store 2 3; input_store 3 4;
        input_store 4 5; input_store 5 6; input_store 6 0; Invoke_call].
Proof. vm_compute. repeat split. discriminate. Qed.

(** ** Overflow *)

(** C4 (amended).  Every 64th byte without a terminator clears the
    buffer.  After a whole number of 64-byte blocks the sketch is back in
    the state it started from, and whatever follows is processed as on a
    fresh buffer.  Bytes beyond the last whole block stay in the buffer:
    they are the beginning of the line that the next terminator ends. *)
Theorem overflow_recovery Invoke g k junk :
  holds g [] -> cr_free junk = true -> length junk = k * INPUT_BUFFER_SIZE ->
  run Invoke g junk = (map print_char junk, Done g)
  /\ (forall line,
         run Invoke g (junk ++ line)
         = let '(evs, r) := run Invoke g line in (map print_char junk ++ evs, r))
  /\ (forall rest,
         cr_free rest = true -> length rest < INPUT_BUFFER_SIZE ->
         run Invoke g (junk ++ rest)
         = (map print_char (junk ++ rest), Done (with_line g rest)))
  /\ (forall rest line,
         cr_free rest = true -> cr_free line = true ->
         length rest + length line < INPUT_BUFFER_SIZE ->
         run Invoke g (junk ++ rest ++ line ++ [CR])
         = let '(evs, r) :=
             after_line (process_input Invoke (with_line g ((rest ++ line) ++ [CR]))) in
           (map print_char junk ++ map print_char (rest ++ line) ++ evs, r)).
Proof.
  intros H Hcr Hlen.
  assert (Hjunk := run_blocks Invoke k junk g H Hcr Hlen).
  split; [exact Hjunk|]. split; [|split].
  - intros line. rewrite run_app, Hjunk. reflexivity.
  - intros rest Hrest Hshort.
    apply (run_blocks_rest Invoke k); try assumption.
    unfold cr_free in *. rewrite forallb_app, Hcr, Hrest. reflexivity.
  - intros rest line Hrest Hline Hshort.
    rewrite run_app, Hjunk. rewrite app_assoc.
    rewrite (run_line Invoke g (rest ++ line) H); cycle 1.
    { unfold cr_free in *. rewrite forallb_app, Hrest, Hline. reflexivity. }
    { rewrite length_app. lia. }
    destruct (after_line _) as [evs r]. reflexivity.
Qed.

Lemma overflow_recovery_witness :
  run echo_Invoke ready_globals (replicate 128 "a"%char)
  = (map print_char (replicate 128 "a"%char), Done ready_globals).
Proof.
  exact (proj1 (overflow_recovery echo_Invoke ready_globals 2
                  (replicate 128 "a"%char) holds_ready eq_refl eq_refl)).
Defined.

(** C4 (as stated) fails: after 65 bytes the buffer was cleared at the 64th
    and holds the 65th, which becomes the first byte of the next line; the
    line ["1,2,3,4,5,6,7"] is then read as ["91,2,3,4,5,6,7"]. *)
Lemma overflow_surplus_joins_next_line :
  run echo_Invoke ready_globals (replicate 65 "9"%char)
  = (map print_char (replicate 65 "9"%char), Done (with_line ready_globals (chars "9")))
  /\ filter is_inference
       (run echo_Invoke ready_globals
          (replicate 65 "9"%char ++ line_of "1,2,3,4,5,6,7")).1
     = [input_store 0 91; input_store 1 2; input_store 2 3; input_store 3 4;
        input_store 4 5; input_store 5 6; input_store 6 7; Invoke_call].
Proof. vm_compute. repeat split. Qed.

(** ** The cursor stays inside the buffer *)

Section Buffer.

Variable process_input : globals -> list event * outcome globals.

Lemma loop_with_append g l c :
  holds g l -> Ascii.eqb c CR = false -> S (length l) < INPUT_BUFFER_SIZE ->
  loop_with process_input g c = ([print_char c], Done (with_line g (l ++ [c]))).
Proof.
  intros H Hc Hroom. rewrite <- with_line_snoc_eq. unfold loop_with.
  rewrite (holds_length _ _ H), (store_holds g l c H).
  destruct H as (Hb & Hi & Hl).
  assert ((in_buff_idx g <? INPUT_BUFFER_SIZE) = true) as -> by (apply Nat.ltb_lt; lia).
  rewrite Hc. cbn [negb in_buff_idx set_line].
  assert ((INPUT_BUFFER_SIZE <=? S (in_buff_idx g)) = false) as ->
    by (apply Nat.leb_gt; lia).
  rewrite Hi. reflexivity.
Qed.

Lemma loop_with_overflow g l c :
  holds g l -> Ascii.eqb c CR = false -> S (length l) = INPUT_BUFFER_SIZE ->
  loop_with process_input g c = ([print_char c], Done (with_line g [])).
Proof.
  intros H Hc Hfull. unfold loop_with.
  rewrite (holds_length _ _ H). destruct H as (Hb & Hi & Hl).
  assert ((in_buff_idx g <? INPUT_BUFFER_SIZE) = true) as -> by (apply Nat.ltb_lt; lia).
  rewrite Hc. cbn [negb in_buff_idx set_line].
  assert ((INPUT_BUFFER_SIZE <=? S (in_buff_idx g)) = true) as ->
    by (apply Nat.leb_le; lia).
  reflexivity.
Qed.

Lemma loop_with_terminator g l :
  holds g l ->
  loop_with process_input g CR = after_line (process_input (with_line g (l ++ [CR]))).
Proof.
  intros H. rewrite <- with_line_snoc_eq. unfold loop_with.
  rewrite (holds_length _ _ H).
  rewrite (store_holds g l CR H). destruct H as (Hb & Hi & Hl).
  assert ((in_buff_idx g <? INPUT_BUFFER_SIZE) = true) as -> by (apply Nat.ltb_lt; lia).
  rewrite Hi. cbn [negb]. change (Ascii.eqb CR CR) with true. cbv iota.
  unfold after_line.
  destruct (process_input _) as [evs [g2|]]; reflexivity.
Qed.

Lemma pending_step l c :
  length l < INPUT_BUFFER_SIZE ->
  length (if Ascii.eqb c CR || (INPUT_BUFFER_SIZE <=? S (length l))
          then [] else l ++ [c]) < INPUT_BUFFER_SIZE.
Proof.
  intros Hl. destruct (Ascii.eqb c CR); cbn [orb];
    [unfold INPUT_BUFFER_SIZE; simpl; lia|].
  destruct (INPUT_BUFFER_SIZE <=? S (length l)) eqn:E.
  - unfold INPUT_BUFFER_SIZE. simpl. lia.
  - apply Nat.leb_gt in E. rewrite length_app. simpl. lia.
Qed.

(** One step: the outcome is that of [process_input] at a terminator and
    is defined otherwise, and the buffer follows [pending]. *)
Lemma loop_with_step g l c :
  holds g l ->
  let l' := if Ascii.eqb c CR || (INPUT_BUFFER_SIZE <=? S (length l))
            then [] else l ++ [c] in
  if Ascii.eqb c CR
  then loop_with process_input g c = after_line (process_input (with_line g (l ++ [CR])))
  else loop_with process_input g c = ([print_char c], Done (with_line g l')).
Proof.
  intros H l'. pose proof H as (_ & _ & Hl). subst l'.
  destruct (Ascii.eqb c CR) eqn:Hc.
  - apply Ascii.eqb_eq in Hc. subst c. exact (loop_with_terminator g l H).
  - cbn [orb]. destruct (INPUT_BUFFER_SIZE <=? S (length l)) eqn:E.
    + apply Nat.leb_le in E. apply (loop_with_overflow g l c H Hc). lia.
    + apply Nat.leb_gt in E. apply (loop_with_append g l c H Hc). lia.
Qed.

(** A run either returns with the buffer as [pending] says, or stops in a
    call of [process_input] made for a terminator. *)
Lemma run_with_pending bytes :
  forall g l,
    holds g l ->
    match run_with process_input g bytes with
    | (_, Done g') => holds g' (pending l bytes)
    | (_, Undefined) =>
        exists before rest evs1 g1,
          bytes = before ++ CR :: rest
          /\ run_with process_input g before = (evs1, Done g1)
          /\ holds g1 (pending l before)
          /\ (process_input (with_line g1 (pending l before ++ [CR]))).2 = Undefined
    end.
Proof.
  induction bytes as [|c bytes IH]; intros g l H; [exact H|].
  cbn [run_with pending]. pose proof (loop_with_step g l c H) as Hstep. cbv zeta in Hstep.
  set (l' := if Ascii.eqb c CR || (INPUT_BUFFER_SIZE <=? S (length l))
             then [] else l ++ [c]) in *.
  assert (Hnext : forall evs0 g0,
            loop_with process_input g c = (evs0, Done g0) -> holds g0 l' ->
            match (let '(evs', r) := run_with process_input g0 bytes in (evs0 ++ evs', r)) with
            | (_, Done g') => holds g' (pending l' bytes)
            | (_, Undefined) =>
                exists before rest evs1 g1,
                  c :: bytes = before ++ CR :: rest
                  /\ run_with process_input g before = (evs1, Done g1)
                  /\ holds g1 (pending l before)
                  /\ (process_input (with_line g1 (pending l before ++ [CR]))).2
                     = Undefined
            end).
  { intros evs0 g0 Hloop H0. specialize (IH g0 l' H0).
    destruct (run_with process_input g0 bytes) as [evs' [g'|]] eqn:E; [exact IH|].
    destruct IH as (before & rest & evs1 & g1 & -> & Hrun & Hg1 & Hpi).
    exists (c :: before), rest, (evs0 ++ evs1), g1. split; [reflexivity|].
    split; [cbn [run_with]; rewrite Hloop, Hrun; reflexivity|].
    split; assumption. }
  destruct (Ascii.eqb c CR) eqn:Hc.
  - apply Ascii.eqb_eq in Hc. subst c.
    destruct (process_input (with_line g (l ++ [CR]))) as [evs0 [g2|]] eqn:Epi.
    + rewrite Hstep. cbn [after_line]. subst l'. cbn [orb].
      apply (Hnext _ _ Hstep). apply holds_reset.
    + rewrite Hstep. cbn [after_line].
      exists [], bytes, [], g. split; [reflexivity|]. split; [reflexivity|].
      split; [exact H|]. cbn [pending]. rewrite Epi. reflexivity.
  - rewrite Hstep. apply (Hnext _ _ Hstep). apply holds_with_line.
    pose proof (pending_step l c ltac:(apply H)) as Hp. rewrite Hc in Hp. exact Hp.
Qed.

End Buffer.

Lemma run_with_process_input Invoke bytes :
  forall g, run Invoke g bytes = run_with (process_input Invoke) g bytes.
Proof.
  induction bytes as [|c bytes IH]; intros g; [reflexivity|].
  cbn [run run_with]. change (loop Invoke g c) with (loop_with (process_input Invoke) g c).
  destruct (loop_with _ g c) as [evs [g'|]]; [rewrite IH|]; reflexivity.
Qed.

Lemma pending_app a : forall l b, pending l (a ++ b) = pending (pending l a) b.
Proof. induction a as [|c a IH]; intros l b; [reflexivity|]. apply IH. Qed.

Lemma pending_length bytes :
  forall l, length l < INPUT_BUFFER_SIZE -> length (pending l bytes) < INPUT_BUFFER_SIZE.
Proof.
  induction bytes as [|c bytes IH]; intros l Hl; [exact Hl|].
  apply IH. apply pending_step. exact Hl.
Qed.

(** C9.  From an empty buffer, whatever bytes are processed and whatever
    the interpreter does: when the run has returned, the buffer holds the
    bytes [pending] names, fewer than 64, followed by zeros, and the
    cursor stands after them, below 64; so every byte is stored inside the
    buffer.  A run stops, if at all, inside a call of [process_input] that
    was made for a terminator, never in the handling of the buffer: the
    step of a terminator returns whenever that call does, and the step of
    any other byte always returns.  The buffer is empty after every
    terminator that [process_input] returns from and after every byte that
    fills the last cell; any other byte is appended.  The handling of the
    buffer does not depend on what [process_input] does: with any call
    that returns in its place, every run returns and leaves the buffer as
    [pending] says.  The sketch starts with an empty buffer. *)
Theorem cursor_in_bounds :
  (forall Invoke g bytes,
      match run Invoke (with_line g []) bytes with
      | (_, Done g') =>
          holds g' (pending [] bytes)
          /\ in_buff_idx g' < INPUT_BUFFER_SIZE
          /\ length (in_str_buff g') = INPUT_BUFFER_SIZE
      | (_, Undefined) =>
          exists before rest evs1 g1,
            bytes = before ++ CR :: rest
            /\ run Invoke (with_line g []) before = (evs1, Done g1)
            /\ holds g1 (pending [] before)
            /\ (process_input Invoke (with_line g1 (pending [] before ++ [CR]))).2
               = Undefined
      end)
  /\ (forall pi g bytes,
         exists evs g',
           run_with (always pi) (with_line g []) bytes = (evs, Done g')
           /\ holds g' (pending [] bytes)
           /\ in_buff_idx g' < INPUT_BUFFER_SIZE)
  /\ (forall Invoke g bytes,
         run Invoke g bytes = run_with (process_input Invoke) g bytes)
  /\ (forall Invoke g l c,
         holds g l ->
         loop Invoke g c
         = if Ascii.eqb c CR
           then after_line (process_input Invoke (with_line g (l ++ [CR])))
           else ([print_char c], Done (with_line g (pending l [c]))))
  /\ (forall bytes, length (pending [] bytes) < INPUT_BUFFER_SIZE)
  /\ (forall l bytes, pending l (bytes ++ [CR]) = [])
  /\ (forall l bytes c,
         S (length (pending l bytes)) = INPUT_BUFFER_SIZE ->
         pending l (bytes ++ [c]) = [])
  /\ (forall l bytes c,
         Ascii.eqb c CR = false ->
         S (length (pending l bytes)) < INPUT_BUFFER_SIZE ->
         pending l (bytes ++ [c]) = pending l bytes ++ [c])
  /\ with_line initial_globals [] = initial_globals.
Proof.
  assert (Hempty : forall g, holds (with_line g []) []).
  { intros g. apply holds_with_line. unfold INPUT_BUFFER_SIZE. simpl. lia. }
  split.
  { intros Invoke g bytes.
    pose proof (run_with_pending (process_input Invoke) bytes _ [] (Hempty g)) as H.
    rewrite <- run_with_process_input in H.
    destruct (run Invoke (with_line g []) bytes) as [evs [g'|]].
    - split; [exact H|]. split; [exact (holds_cursor _ _ H) | exact (holds_length _ _ H)].
    - destruct H as (before & rest & evs1 & g1 & Hb & Hrun & Hg1 & Hpi).
      rewrite <- run_with_process_input in Hrun.
      exists before, rest, evs1, g1. repeat split; try assumption; apply Hg1. }
  split.
  { intros pi g bytes.
    pose proof (run_with_pending (always pi) bytes _ [] (Hempty g)) as H.
    destruct (run_with (always pi) (with_line g []) bytes) as [evs [g'|]].
    - exists evs, g'. split; [reflexivity|]. split; [exact H | exact (holds_cursor _ _ H)].
    - destruct H as (before & rest & evs1 & g1 & _ & _ & _ & Hpi). discriminate Hpi. }
  split; [intros Invoke g bytes; apply run_with_process_input|].
  split.
  { intros Invoke g l c H.
    pose proof (loop_with_step (process_input Invoke) g l c H) as Hstep.
    cbv zeta in Hstep. cbn [pending].
    destruct (Ascii.eqb c CR); exact Hstep. }
  split.
  { intros bytes. apply pending_length. unfold INPUT_BUFFER_SIZE. simpl. lia. }
  split.
  { intros l bytes. rewrite pending_app. reflexivity. }
  split.
  { intros l bytes c Hfull. rewrite pending_app. cbn [pending].
    assert ((INPUT_BUFFER_SIZE <=? S (length (pending l bytes))) = true) as ->
      by (apply Nat.leb_le; lia).
    rewrite orb_true_r. reflexivity. }
  split; [|reflexivity].
  intros l bytes c Hc Hroom. rewrite pending_app. cbn [pending].
  assert ((INPUT_BUFFER_SIZE <=? S (length (pending l bytes))) = false) as ->
    by (apply Nat.leb_gt; lia).
  rewrite Hc. reflexivity.
Qed.

(** The buffer after 70 bytes without a terminator, a line with seven
    values and the beginning of another line. *)
Lemma cursor_in_bounds_witness :
  pending [] (replicate 64 "9"%char ++ [CR]) = []
  /\ pending [] ((replicate 70 "9"%char ++ line_of "1,2,3,4,5,6,7") ++ ["8"%char])
     = pending [] (replicate 70 "9"%char ++ line_of "1,2,3,4,5,6,7") ++ ["8"%char].
Proof.
  destruct cursor_in_bounds as (_ & _ & _ & _ & _ & Hcr & _ & Happ & _).
  split; [apply Hcr|]. apply Happ; [reflexivity|].
  unfold INPUT_BUFFER_SIZE. vm_compute. lia.
Defined.

(** ** Failed start-up *)

(** A line with fewer than seven tokens leaves the sketch as it was, but
    for the values in [input_array]. *)
Lemma run_short_line Invoke g l :
  holds g [] -> short_line l = true ->
  run Invoke g (l ++ [CR])
  = (map print_char l ++ [print_char CR; println_empty; println error_arity],
     Done (with_line
             (set_input_array g
                (store_from 0
                   (map atoi (take INT_ARRAY_SIZE (tokens (until_nul (l ++ [CR])))))
                   (input_array g))) [])).
Proof.
  intros H Hshort. unfold short_line in Hshort.
  apply andb_prop in Hshort as [Hshort Hfew].
  apply andb_prop in Hshort as [Hcr Hlen]. apply Nat.ltb_lt in Hlen.
  rewrite (run_line Invoke g l H Hcr) by lia.
  erewrite after_line_process_input
    by (apply c_str_with_line; rewrite length_app; simpl; lia).
  cbv zeta. rewrite Hfew. cbn [after_line]. rewrite with_line_forgets. reflexivity.
Qed.

Lemma run_short_lines Invoke lines :
  forall g,
    holds g [] -> forallb short_line lines = true ->
    exists g',
      run Invoke g (sent lines) = (arity_answers lines, Done g')
      /\ input_tensor g' = input_tensor g
      /\ output_tensor g' = output_tensor g
      /\ holds g' [].
Proof.
  induction lines as [|l lines IH]; intros g H Hall.
  - exists g. repeat split; try reflexivity; apply H.
  - simpl in Hall. apply andb_prop in Hall as [Hl Hall].
    change (sent (l :: lines)) with ((l ++ [CR]) ++ sent lines).
    change (arity_answers (l :: lines))
      with ((map print_char l ++ [print_char CR; println_empty; println error_arity])
              ++ arity_answers lines).
    rewrite run_app, (run_short_line Invoke g l H Hl).
    match goal with
    | |- context [run Invoke ?g1 (sent lines)] =>
        destruct (IH g1) as (g' & Hrun & Hin & Hout & Hg');
          [apply holds_with_line; unfold INPUT_BUFFER_SIZE; simpl; lia | exact Hall |]
    end.
    rewrite Hrun. exists g'. repeat split; try assumption; apply Hg'.
Qed.

(** C7 (amended).  When the schema version differs [setup] prints the
    mismatch line and returns before the interpreter is set; when the
    tensors cannot be allocated it prints the allocation line and returns.
    Either way both tensor pointers stay null.  There is no readiness check
    and no readiness response: the sketch goes on reading input, and lines
    of at most 62 bytes with fewer than seven tokens, however many, are
    each answered with the arity error, leaving the tensor pointers
    null. *)
Theorem failed_startup TFLITE_SCHEMA_VERSION model_version AllocateTensors tin tout Invoke :
  let start := setup TFLITE_SCHEMA_VERSION model_version AllocateTensors tin tout
                 initial_globals in
  ((model_version =? TFLITE_SCHEMA_VERSION)%Z = false ->
   start.1 = [banner; println "Model schema version mismatch!"]
   /\ interpreter start.2 = false)
  /\ ((model_version =? TFLITE_SCHEMA_VERSION)%Z = true -> AllocateTensors = false ->
      start.1 = [banner; println "Failed to allocate tensors!"]
      /\ interpreter start.2 = true)
  /\ ((model_version =? TFLITE_SCHEMA_VERSION)%Z = false \/ AllocateTensors = false ->
      input_tensor start.2 = None
      /\ output_tensor start.2 = None
      /\ holds start.2 []
      /\ (forall lines,
             forallb short_line lines = true ->
             exists g',
               run Invoke start.2 (sent lines) = (arity_answers lines, Done g')
               /\ input_tensor g' = None
               /\ output_tensor g' = None
               /\ holds g' [])).
Proof.
  intros start. split; [|split].
  - intros Hv. unfold start, setup. rewrite Hv. split; reflexivity.
  - intros Hv ->. unfold start, setup. rewrite Hv. split; reflexivity.
  - intros Hfail.
    assert (Hstart : input_tensor start.2 = None /\ output_tensor start.2 = None
                     /\ holds start.2 []).
    { unfold start, setup.
      destruct (model_version =? TFLITE_SCHEMA_VERSION)%Z; cbn [negb].
      - destruct Hfail as [Hfail | ->]; [discriminate|]. cbn [negb fst snd].
        split; [reflexivity|]. split; [reflexivity|].
        repeat split. unfold INPUT_BUFFER_SIZE. simpl. lia.
      - cbn [fst snd]. split; [reflexivity|]. split; [reflexivity|].
        exact holds_initial. }
    destruct Hstart as (Hin & Hout & Hholds).
    split; [exact Hin|]. split; [exact Hout|]. split; [exact Hholds|].
    intros lines Hall.
    destruct (run_short_lines Invoke lines _ Hholds Hall) as (g' & Hrun & Hi & Ho & Hg').
    exists g'. rewrite Hi, Ho. repeat split; try assumption; apply Hg'.
Qed.

Lemma failed_startup_witness :
  exists g',
    run echo_Invoke (setup 3 3 false unit_tensor unit_tensor initial_globals).2
      (sent [chars "1,2,3"; chars "hello"; chars "1,2,3,4,5,6"])
    = (arity_answers [chars "1,2,3"; chars "hello"; chars "1,2,3,4,5,6"], Done g')
    /\ input_tensor g' = None
    /\ output_tensor g' = None
    /\ holds g' [].
Proof.
  destruct (failed_startup 3 3 false unit_tensor unit_tensor echo_Invoke)
    as (_ & _ & Hfail).
  destruct (Hfail (or_intror eq_refl)) as (_ & _ & _ & Hlines).
  apply Hlines. reflexivity.
Defined.

(** C7 (as stated) fails: after a schema mismatch a line of seven integers
    is not answered with a readiness message.  The sketch enters
    [measure_and_run_model], prints its first line and reads the type of the
    input tensor through the unset pointer. *)
Lemma no_not_ready_response :
  setup 3 2 true unit_tensor unit_tensor initial_globals
  = ([banner; println "Model schema version mismatch!"], initial_globals)
  /\ process_input echo_Invoke (with_line initial_globals (line_of "1,2,3,4,5,6,7"))
     = ([println running], Undefined)
  /\ run echo_Invoke initial_globals (line_of "1,2,3,4,5,6,7")
     = (map print_char (chars "1,2,3,4,5,6,7")
          ++ [print_char CR; println_empty; println running], Undefined).
Proof. vm_compute. repeat split. Qed.

(** ** Rounding *)

Lemma mag_trunc_floor m e :
  mag_trunc m e
  = Qfloor (Qmake (Zpos (magnitude m e).1) (magnitude m e).2).
Proof.
  destruct e as [|p|k]; simpl.
  - rewrite Z.div_1_r. reflexivity.
  - rewrite Z.div_1_r, Z.shiftl_mul_pow2 by lia.
    rewrite Pos2Z.inj_mul, Pos2Z.inj_pow. reflexivity.
  - change (Z.pos (Pos.shiftr m (N.pos k)))%Z with (Z.shiftr (Z.pos m) (Z.pos k)).
    rewrite Z.shiftr_div_pow2 by lia. rewrite Pos2Z.inj_pow. reflexivity.
Qed.

Lemma mag_round_floor m e :
  mag_round m e
  = Qfloor (Qmake (Zpos (magnitude m e).1) (magnitude m e).2 + (1 # 2)).
Proof.
  unfold mag_round, Qplus, Qfloor.
  destruct e as [|p|k]; cbn [magnitude fst snd Qnum Qden].
  - rewrite Z.shiftl_0_r. change (Z.pos (1 * 2)) with 2%Z.
    apply (Z.div_unique_pos _ 2 _ 1); lia.
  - rewrite Z.shiftl_mul_pow2 by lia. change (Z.pos (1 * 2)) with 2%Z.
    rewrite Pos2Z.inj_mul, Pos2Z.inj_pow.
    apply (Z.div_unique_pos _ 2 _ 1); lia.
  - rewrite !Z.shiftl_mul_pow2, Z.shiftr_div_pow2 by lia.
    rewrite Pos2Z.inj_mul, Pos2Z.inj_pow, Z.pow_add_r by lia.
    f_equal; lia.
Qed.

(** The conversion of a finite float to an integer drops the fraction of
    its value, and [round] rounds its value to the nearest integer. *)
Lemma float_trunc_value f :
  is_finite f = true -> float_trunc f = Some (round_toward_zero (F2Q f)).
Proof.
  destruct f as [s|s| |s m e]; try discriminate; intros _; [reflexivity|].
  unfold float_trunc, round_toward_zero, F2Q. rewrite mag_trunc_floor.
  destruct (magnitude m e) as [n d].
  destruct s; cbn [fst snd Qnum Z.sgn Qabs]; unfold Z.abs; apply f_equal; lia.
Qed.

Lemma round_value f :
  is_finite f = true -> round f = Some (round_to_nearest (F2Q f)).
Proof.
  destruct f as [s|s| |s m e]; try discriminate; intros _; [reflexivity|].
  unfold round, round_to_nearest, F2Q. rewrite mag_round_floor.
  destruct (magnitude m e) as [n d].
  destruct s; cbn [fst snd Qnum Z.sgn Qabs]; unfold Z.abs; apply f_equal; lia.
Qed.

Lemma round_not_finite f : is_finite f = false -> round f = None.
Proof. destruct f; try discriminate; reflexivity. Qed.

Lemma clamp_ifs_clamp n : clamp_ifs n = clamp_int8 n.
Proof.
  unfold clamp_ifs, clamp_int8, INT8_MIN, INT8_MAX.
  destruct (n <? -128)%Z eqn:E1.
  - apply Z.ltb_lt in E1. assert ((-128 >? 127)%Z = false) as -> by reflexivity. lia.
  - apply Z.ltb_ge in E1. destruct (n >? 127)%Z eqn:E2.
    + apply Z.gtb_lt in E2. lia.
    + rewrite Z.gtb_ltb in E2. apply Z.ltb_ge in E2. lia.
Qed.

Lemma clamp_int8_bounds n : (-128 <= clamp_int8 n <= 127)%Z.
Proof. unfold clamp_int8, INT8_MIN, INT8_MAX. lia. Qed.

(** ** Dequantisation, rounding and clamping of the prediction *)

Lemma predicted_integer_defined pf :
  is_finite pf = true ->
  (INT_MIN <= round_to_nearest (F2Q pf) <= INT_MAX)%Z ->
  predicted_integer pf = Some (clamp_int8 (round_to_nearest (F2Q pf))).
Proof.
  intros Hfin [Hlo Hhi]. unfold predicted_integer, int_of.
  rewrite (round_value pf Hfin).
  apply Z.leb_le in Hlo. apply Z.leb_le in Hhi. rewrite Hlo, Hhi. cbn [andb].
  rewrite clamp_ifs_clamp. reflexivity.
Qed.

(** C5 (the code where the rounded prediction leaves the range of
    [int]).  The sketch converts the rounded prediction to [int] first and
    clamps the [int] afterwards.  With output scale 2^24, zero point -128
    and the raw byte 127 the prediction is 255 * 2^24 = 4278190080, which
    rounds to itself; clamped to [-128, 127] that is 127.  An [int] cannot
    hold 4278190080, so the conversion that precedes the clamp has no
    defined result, and neither has the integer the sketch prints. *)
Lemma prediction_converted_before_clamp :
  predicted_float 127 (float_of_int 16777216) (-128) = float_of_int 4278190080
  /\ F2Q (predicted_float 127 (float_of_int 16777216) (-128)) == inject_Z 4278190080
  /\ clamp_int8 (round_to_nearest (F2Q (predicted_float 127 (float_of_int 16777216) (-128))))
     = 127%Z
  /\ round (predicted_float 127 (float_of_int 16777216) (-128)) = Some 4278190080%Z
  /\ (INT_MAX < 4278190080)%Z
  /\ predicted_integer (predicted_float 127 (float_of_int 16777216) (-128)) = None
  /\ run top_Invoke wide_globals (line_of "1,2,3,4,5,6,7")
     = (map print_char (chars "1,2,3,4,5,6,7")
          ++ [print_char CR; println_empty; println running]
          ++ stores 0 [1; 2; 3; 4; 5; 6; 7]%Z
          ++ [Invoke_call; print "Raw dequantized prediction (float): ";
              println_float (float_of_int 4278190080)],
        Undefined).
Proof. vm_compute. repeat split. Qed.

(** ** Quantisation of the inputs *)

(** The stored byte, when there is one, is the quotient with its fraction
    dropped; there is one exactly when that integer fits [int8_t]. *)
Lemma quantized_value_defined x input_scale input_zero_point q :
  quantized_value x input_scale input_zero_point = Some q
  <-> (let quotient :=
         fdiv (float_of_int (wrap_int (x - input_zero_point))) input_scale in
       is_finite quotient = true
       /\ q = round_toward_zero (F2Q quotient)
       /\ (-128 <= q <= 127)%Z).
Proof.
  unfold quantized_value, static_cast_int8, fits_int8, INT8_MIN, INT8_MAX. cbv zeta.
  destruct (is_finite (fdiv _ _)) eqn:Hfin.
  - rewrite (float_trunc_value _ Hfin).
    destruct (_ && _) eqn:E.
    + apply andb_prop in E as [E1 E2]. apply Z.leb_le in E1. apply Z.leb_le in E2.
      split; [intros [= <-]; auto|]. intros (_ & -> & _). reflexivity.
    + split; [discriminate|]. intros (_ & -> & H1 & H2).
      apply Z.leb_le in H1. apply Z.leb_le in H2. rewrite H1, H2 in E. discriminate.
  - split; [|intros [? _]; discriminate].
    destruct (fdiv _ _); try discriminate Hfin; discriminate.
Qed.

(** C3 (the code where the quotient leaves the range of [int8_t]).  With
    scale 1 and zero point 0 the element 1000 has the quotient 1000.0;
    dropping its fraction gives 1000, which [int8_t] cannot hold.  The
    sketch converts it as it is, without a clamp: no value is defined for
    the stored byte, where the saturated value would be 127, and the line
    ["1000,2,3,4,5,6,7"] stops the run before any store.  With scale 0.1
    the same happens from the element 13 on, whose quotient is 130.0. *)
Lemma quantize_does_not_saturate :
  round_toward_zero (F2Q (fdiv (float_of_int (1000 - 0)) f_one)) = 1000%Z
  /\ clamp_int8 1000 = 127%Z
  /\ quantized_value 1000 f_one 0 = None
  /\ run echo_Invoke ready_globals (line_of "1000,2,3,4,5,6,7")
     = (map print_char (chars "1000,2,3,4,5,6,7")
          ++ [print_char CR; println_empty; println running], Undefined)
  /\ quantized_value 12 f_tenth 0 = Some 120%Z
  /\ round_toward_zero (F2Q (fdiv (float_of_int (13 - 0)) f_tenth)) = 130%Z
  /\ quantized_value 13 f_tenth 0 = None.
Proof. vm_compute. repeat split. Qed.

(** ** Round trip *)

(** With scale 1, every zero point and every input whose quantised value
    fits [int8_t]: the value read back is the input less twice the zero
    point.  The two steps are inverse for zero point 0 only. *)
Lemma round_trip_scale_one x zero_point :
  (-128 <= zero_point <= 127)%Z -> (-128 <= x - zero_point <= 127)%Z ->
  quantized_value x f_one zero_point = Some (x - zero_point)%Z
  /\ F2Q (predicted_float (x - zero_point) f_one zero_point)
     == inject_Z (x - 2 * zero_point).
Proof.
  intros Hzp Hd.
  assert (Hall : forallb (fun zp => forallb (round_trip_check zp) (seqZ (-128) 256))
                   (seqZ (-128) 256) = true) by (vm_compute; reflexivity).
  rewrite forallb_forall in Hall.
  assert (Hin : forall z, (-128 <= z <= 127)%Z -> In z (seqZ (-128) 256))
    by (intros z Hz; apply list_elem_of_In, elem_of_seqZ; lia).
  specialize (Hall zero_point (Hin _ Hzp)). rewrite forallb_forall in Hall.
  specialize (Hall (x - zero_point)%Z (Hin _ Hd)). unfold round_trip_check in Hall.
  replace (x - zero_point + zero_point)%Z with x in Hall by lia.
  destruct (quantized_value x f_one zero_point) as [q|]; [|discriminate Hall].
  apply andb_prop in Hall as [Hq Hv]. apply Z.eqb_eq in Hq. subst q.
  split; [reflexivity|]. apply Qeq_bool_iff. exact Hv.
Qed.

(** C2 (the code at a zero point other than 0).  Quantisation subtracts
    the zero point before dividing and dequantisation subtracts it again
    before multiplying, so the second step does not undo the first.  With
    scale 1 and zero point 10, 20 is stored as 10 and read back as 0.0,
    twenty steps away from 20; with scale 0.5 and zero point -3, 10 is
    stored as 26 and read back as 14.5, nine steps away. *)
Lemma round_trip_loses_zero_point :
  quantized_value 20 f_one 10 = Some 10%Z
  /\ predicted_float 10 f_one 10 = S754_zero false
  /\ (F2Q f_one < Qabs (F2Q (predicted_float 10 f_one 10) - inject_Z 20))%Q
  /\ quantized_value 10 f_half (-3) = Some 26%Z
  /\ F2Q (predicted_float 26 f_half (-3)) == 29 # 2
  /\ (F2Q f_half < Qabs (F2Q (predicted_float 26 f_half (-3)) - inject_Z 10))%Q.
Proof. vm_compute. repeat split. Qed.

(** * Further properties of the sketch *)

(** ** The quantisation loop *)

Section Requests.

Variable Invoke : list Z -> option Z.

Lemma quantize_loop_done vals :
  forall pre rest input_scale input_zero_point qs,
    quantize_all vals input_scale input_zero_point = Some qs ->
    quantize_loop (length vals) (length pre) (pre ++ vals ++ rest)
      input_scale input_zero_point
    = (stores (length pre) qs, Done qs).
Proof.
  induction vals as [|x vals IH]; intros pre rest s zp qs Hq; simpl in Hq.
  - injection Hq as <-. reflexivity.
  - destruct (quantized_value x s zp) as [q|] eqn:Eq; [|discriminate].
    destruct (quantize_all vals s zp) as [qs'|] eqn:Eqs; [|discriminate].
    injection Hq as <-. cbn [length quantize_loop app].
    rewrite list_lookup_middle by reflexivity. rewrite Eq.
    specialize (IH (pre ++ [x]) rest s zp qs' Eqs).
    rewrite length_app, <- app_assoc in IH. simpl in IH.
    rewrite Nat.add_1_r in IH. rewrite IH. reflexivity.
Qed.

(** [measure_and_run_model] when the interpreter is ready, both tensors
    hold int8 and every input has a quantised value. *)
Lemma measure_and_run_model_ready g tin tout qs :
  input_tensor g = Some tin -> output_tensor g = Some tout ->
  interpreter g = true ->
  type tin = kTfLiteInt8 -> type tout = kTfLiteInt8 ->
  length (input_array g) = INT_ARRAY_SIZE ->
  quantize_all (input_array g) (params_scale tin) (params_zero_point tin) = Some qs ->
  measure_and_run_model Invoke g
  = match Invoke qs with
    | None =>
        (println running :: stores 0 qs
           ++ [Invoke_call; println "Model inference failed!"], Done tt)
    | Some raw_prediction =>
        let pf := predicted_float raw_prediction (params_scale tout)
                    (params_zero_point tout) in
        match predicted_integer pf with
        | Some p =>
            (println running :: stores 0 qs ++ Invoke_call :: report_events pf p,
             Done tt)
        | None =>
            (println running :: stores 0 qs
               ++ [Invoke_call; print "Raw dequantized prediction (float): ";
                   println_float pf], Undefined)
        end
    end.
Proof.
  intros Hin Hout Hint Htin Htout Hlen Hq.
  unfold measure_and_run_model. rewrite Hin, Hout, Htin, Htout, Hint.
  cbn [is_int8 negb].
  pose proof (quantize_loop_done (input_array g) [] [] _ _ qs Hq) as Hloop.
  rewrite app_nil_r in Hloop. cbn [app length] in Hloop.
  rewrite Hlen in Hloop. rewrite Hloop.
  destruct (Invoke qs) as [raw|]; [|reflexivity].
  unfold report. cbv zeta. destruct (predicted_integer _) as [p|]; reflexivity.
Qed.

(** A line with seven tokens or more, up to the call of
    [measure_and_run_model]. *)
Lemma run_request g l :
  holds g [] -> cr_free l = true -> S (length l) < INPUT_BUFFER_SIZE ->
  INT_ARRAY_SIZE <= length (tokens (until_nul (l ++ [CR]))) ->
  length (input_array g) = INT_ARRAY_SIZE ->
  let g' := set_input_array (with_line g (l ++ [CR]))
              (map atoi (take INT_ARRAY_SIZE (tokens (until_nul (l ++ [CR]))))) in
  run Invoke g (l ++ [CR])
  = let '(evs, r) := after_line (returning g' (measure_and_run_model Invoke g')) in
    (map print_char l ++ evs, r).
Proof.
  intros H Hcr Hlen Hmany Harr.
  assert (Hs : c_str (in_str_buff (with_line g (l ++ [CR])))
               = Some (until_nul (l ++ [CR]))).
  { apply c_str_with_line. rewrite length_app. simpl. lia. }
  rewrite (run_line Invoke g l H Hcr) by lia.
  rewrite (after_line_process_input Invoke _ _ Hs). cbv zeta.
  pose proof Hmany as Hge. apply Nat.ltb_ge in Hge. rewrite Hge.
  cbn [with_line set_line input_array].
  rewrite store_from_all; [reflexivity|].
  rewrite length_map, length_take, Harr. lia.
Qed.

Lemma request_final_state g s vals :
  holds g [] ->
  with_line (set_input_array (with_line g s) vals) [] = set_input_array g vals.
Proof.
  intros (Hb & Hi & _). destruct g; simpl in *. subst. reflexivity.
Qed.

End Requests.

(** X1.  A complete request.  The interpreter is ready, both tensors hold
    int8, the line has at most 62 bytes and at least seven tokens, the
    numbers of the first seven fit an [int] and each has a quantised byte,
    [Invoke] succeeds with a byte of [int8_t] and the rounded prediction
    fits an [int].  Then the sketch echoes the line,
    prints a blank line and the start line, stores the seven bytes at
    indices 0 to 6, calls [Invoke] once and prints the four report lines;
    afterwards the buffer is empty again and [input_array] holds the seven
    values. *)
Theorem successful_request Invoke g tin tout l qs raw_prediction p :
  holds g [] -> cr_free l = true -> S (length l) < INPUT_BUFFER_SIZE ->
  length (input_array g) = INT_ARRAY_SIZE ->
  input_tensor g = Some tin -> output_tensor g = Some tout ->
  interpreter g = true ->
  type tin = kTfLiteInt8 -> type tout = kTfLiteInt8 ->
  INT_ARRAY_SIZE <= length (tokens (until_nul (l ++ [CR]))) ->
  forallb int_token (take INT_ARRAY_SIZE (tokens (until_nul (l ++ [CR])))) = true ->
  let vals := map atoi (take INT_ARRAY_SIZE (tokens (until_nul (l ++ [CR])))) in
  let pf := predicted_float raw_prediction (params_scale tout) (params_zero_point tout) in
  quantize_all vals (params_scale tin) (params_zero_point tin) = Some qs ->
  Invoke qs = Some raw_prediction -> fits_int8 raw_prediction = true ->
  predicted_integer pf = Some p ->
  run Invoke g (l ++ [CR])
  = (map print_char l
       ++ [print_char CR; println_empty; println running]
       ++ stores 0 qs ++ Invoke_call :: report_events pf p,
     Done (set_input_array g vals)).
Proof.
  intros H Hcr Hlen Harr Hin Hout Hint Htin Htout Hmany _ vals pf Hq Hinv _ Hp.
  rewrite (run_request Invoke g l H Hcr Hlen Hmany Harr). cbv zeta.
  fold vals.
  rewrite (measure_and_run_model_ready Invoke _ tin tout qs); try assumption;
    try reflexivity.
  - rewrite Hinv. cbv zeta. fold pf. rewrite Hp.
    cbn [returning after_line]. rewrite (request_final_state g _ vals H).
    reflexivity.
  - cbn [set_input_array input_array]. unfold vals.
    rewrite length_map, length_take. lia.
Qed.

Lemma successful_request_witness :
  run echo_Invoke ready_globals (line_of "5,6,7,8,9,10,11")
  = (map print_char (chars "5,6,7,8,9,10,11")
       ++ [print_char CR; println_empty; println running]
       ++ stores 0 [5; 6; 7; 8; 9; 10; 11]%Z
       ++ Invoke_call :: report_events (predicted_float 5 f_one 0) 5,
     Done (set_input_array ready_globals [5; 6; 7; 8; 9; 10; 11]%Z)).
Proof.
  apply (successful_request echo_Invoke ready_globals unit_tensor unit_tensor
           (chars "5,6,7,8,9,10,11") [5; 6; 7; 8; 9; 10; 11]%Z 5 5);
    try reflexivity.
  - exact holds_ready.
  - unfold INPUT_BUFFER_SIZE. simpl. lia.
Defined.

(** X2.  A failed [Invoke].  Under the same conditions, when [Invoke] does
    not return [kTfLiteOk] the seven bytes have been stored, the failure
    line is printed and no prediction line follows; the sketch returns to
    an empty buffer. *)
Theorem failed_invoke_reported Invoke g tin tout l qs :
  holds g [] -> cr_free l = true -> S (length l) < INPUT_BUFFER_SIZE ->
  length (input_array g) = INT_ARRAY_SIZE ->
  input_tensor g = Some tin -> output_tensor g = Some tout ->
  interpreter g = true ->
  type tin = kTfLiteInt8 -> type tout = kTfLiteInt8 ->
  INT_ARRAY_SIZE <= length (tokens (until_nul (l ++ [CR]))) ->
  forallb int_token (take INT_ARRAY_SIZE (tokens (until_nul (l ++ [CR])))) = true ->
  let vals := map atoi (take INT_ARRAY_SIZE (tokens (until_nul (l ++ [CR])))) in
  quantize_all vals (params_scale tin) (params_zero_point tin) = Some qs ->
  Invoke qs = None ->
  run Invoke g (l ++ [CR])
  = (map print_char l
       ++ [print_char CR; println_empty; println running]
       ++ stores 0 qs ++ [Invoke_call; println "Model inference failed!"],
     Done (set_input_array g vals)).
Proof.
  intros H Hcr Hlen Harr Hin Hout Hint Htin Htout Hmany _ vals Hq Hinv.
  rewrite (run_request Invoke g l H Hcr Hlen Hmany Harr). cbv zeta.
  fold vals.
  rewrite (measure_and_run_model_ready Invoke _ tin tout qs); try assumption;
    try reflexivity.
  - rewrite Hinv. cbn [returning after_line].
    rewrite (request_final_state g _ vals H). reflexivity.
  - cbn [set_input_array input_array]. unfold vals.
    rewrite length_map, length_take. lia.
Qed.

Lemma failed_invoke_reported_witness :
  run (fun _ => None) ready_globals (line_of "1,2,3,4,5,6,7")
  = (map print_char (chars "1,2,3,4,5,6,7")
       ++ [print_char CR; println_empty; println running]
       ++ stores 0 [1; 2; 3; 4; 5; 6; 7]%Z
       ++ [Invoke_call; println "Model inference failed!"],
     Done (set_input_array ready_globals [1; 2; 3; 4; 5; 6; 7]%Z)).
Proof.
  apply (failed_invoke_reported (fun _ => None) ready_globals unit_tensor unit_tensor
           (chars "1,2,3,4,5,6,7") [1; 2; 3; 4; 5; 6; 7]%Z);
    try reflexivity.
  - exact holds_ready.
  - unfold INPUT_BUFFER_SIZE. simpl. lia.
Defined.

(** ** What a run never changes *)

Lemma store_from_length n vals a : length (store_from n vals a) = length a.
Proof.
  revert n a. induction vals as [|v vals IH]; intros n a; simpl; [reflexivity|].
  rewrite IH. apply length_insert.
Qed.

Section Engine.

Variable Invoke : list Z -> option Z.

Lemma process_input_engine g evs g' :
  process_input Invoke g = (evs, Done g') ->
  same_engine g g' /\ in_buff_idx g' = in_buff_idx g.
Proof.
  unfold process_input.
  destruct (c_str (in_str_buff g)) as [in_str|]; [|discriminate].
  rewrite string_to_array_spec. cbv zeta.
  assert (Hsame : forall a buf, a = store_from 0
            (map atoi (take INT_ARRAY_SIZE (tokens in_str))) (input_array g) ->
          same_engine g (set_line (set_input_array g a) buf (in_buff_idx g))).
  { intros a buf ->. repeat split. apply store_from_length. }
  destruct (negb _).
  - intros [= _ <-]. split; [apply Hsame; reflexivity | reflexivity].
  - destruct (measure_and_run_model Invoke _) as [evs1 [[]|]]; [|discriminate].
    intros [= _ <-]. split; [apply Hsame; reflexivity | reflexivity].
Qed.

Lemma loop_engine g c evs g' :
  loop Invoke g c = (evs, Done g') -> same_engine g g'.
Proof.
  unfold loop. destruct (negb _); [discriminate|].
  destruct (Ascii.eqb c CR).
  - destruct (process_input Invoke _) as [evs1 [g2|]] eqn:E; [|discriminate].
    apply process_input_engine in E as [(H1 & H2 & H3 & H4) _].
    intros [= _ <-]. repeat split; assumption.
  - destruct (INPUT_BUFFER_SIZE <=? _); intros [= _ <-]; repeat split.
Qed.

Lemma run_engine bytes :
  forall g evs g', run Invoke g bytes = (evs, Done g') -> same_engine g g'.
Proof.
  induction bytes as [|c bytes IH]; intros g evs g'; simpl.
  - intros [= _ <-]. repeat split.
  - destruct (loop Invoke g c) as [evs1 [g1|]] eqn:E; [|discriminate].
    destruct (run Invoke g1 bytes) as [evs2 r] eqn:E2.
    intros [= _ ->].
    destruct (loop_engine _ _ _ _ E) as (H1 & H2 & H3 & H4).
    destruct (IH _ _ _ E2) as (K1 & K2 & K3 & K4).
    repeat split; congruence.
Qed.

End Engine.

(** ** Tensors of another type *)

Section NotInt8.

Variable Invoke : list Z -> option Z.

Lemma measure_and_run_model_not_int8 g :
  tensors_not_int8 g = true ->
  measure_and_run_model Invoke g
  = ([println running; println "Error: Expected int8 tensors!"], Done tt).
Proof.
  unfold tensors_not_int8, measure_and_run_model.
  destruct (input_tensor g) as [tin|]; [|discriminate].
  destruct (negb (is_int8 (type tin))); [reflexivity|].
  destruct (output_tensor g) as [tout|]; [|discriminate].
  cbn [orb]. intros ->. reflexivity.
Qed.

Lemma tensors_not_int8_same g g' :
  same_engine g g' -> tensors_not_int8 g' = tensors_not_int8 g.
Proof. intros (_ & H2 & H3 & _). unfold tensors_not_int8. rewrite H2, H3. reflexivity. Qed.

Lemma loop_not_int8 g c evs r :
  tensors_not_int8 g = true ->
  loop Invoke g c = (evs, r) ->
  filter is_inference evs = [].
Proof.
  intros Hty. unfold loop. destruct (negb _); [intros [= <- _]; reflexivity|].
  destruct (Ascii.eqb c CR).
  - unfold process_input. cbn [set_line in_str_buff input_array].
    destruct (c_str _) as [in_str|]; [|intros [= <- _]; reflexivity].
    destruct (string_to_array in_str (input_array g)) as [a n].
    destruct (negb (n =? INT_ARRAY_SIZE)); [intros [= <- _]; reflexivity|].
    rewrite measure_and_run_model_not_int8 by exact Hty.
    intros [= <- _]. reflexivity.
  - destruct (INPUT_BUFFER_SIZE <=? _); intros [= <- _]; reflexivity.
Qed.

Lemma run_not_int8 bytes :
  forall g evs r,
    tensors_not_int8 g = true ->
    run Invoke g bytes = (evs, r) ->
    filter is_inference evs = [].
Proof.
  induction bytes as [|c bytes IH]; intros g evs r Hty; simpl.
  - intros [= <- _]. reflexivity.
  - destruct (loop Invoke g c) as [evs1 r1] eqn:E.
    pose proof (loop_not_int8 _ _ _ _ Hty E) as H1.
    destruct r1 as [g1|]; [|intros [= <- _]; exact H1].
    destruct (run Invoke g1 bytes) as [evs2 r2] eqn:E2.
    intros [= <- _]. rewrite filter_app, H1.
    apply (IH g1 evs2 r2); [|exact E2].
    rewrite (tensors_not_int8_same g g1); [exact Hty|].
    exact (loop_engine Invoke _ _ _ _ E).
Qed.

End NotInt8.

(** X4.  When the input tensor, or else the output tensor, does not hold
    int8, no input ever stores a byte into the input tensor or calls
    [Invoke]; a line of at most 62 bytes with seven tokens or more is
    answered with the start line and the type error, and the sketch goes
    on with an empty buffer. *)
Theorem wrong_tensor_type Invoke g :
  tensors_not_int8 g = true ->
  (forall bytes, filter is_inference (run Invoke g bytes).1 = [])
  /\ (forall l,
         holds g [] -> cr_free l = true -> S (length l) < INPUT_BUFFER_SIZE ->
         length (input_array g) = INT_ARRAY_SIZE ->
         INT_ARRAY_SIZE <= length (tokens (until_nul (l ++ [CR]))) ->
         run Invoke g (l ++ [CR])
         = (map print_char l
              ++ [print_char CR; println_empty; println running;
                  println "Error: Expected int8 tensors!"],
            Done (set_input_array g
                    (map atoi (take INT_ARRAY_SIZE (tokens (until_nul (l ++ [CR])))))))).
Proof.
  intros Hty. split.
  - intros bytes. destruct (run Invoke g bytes) as [evs r] eqn:E.
    exact (run_not_int8 Invoke bytes g evs r Hty E).
  - intros l H Hcr Hlen Harr Hmany.
    rewrite (run_request Invoke g l H Hcr Hlen Hmany Harr). cbv zeta.
    rewrite measure_and_run_model_not_int8 by exact Hty.
    cbn [returning after_line]. rewrite (request_final_state g _ _ H). reflexivity.
Qed.

Lemma wrong_tensor_type_witness :
  filter is_inference
    (run echo_Invoke
       (set_tensors ready_globals
          (Some {| type := kTfLiteFloat32; params_scale := f_one; params_zero_point := 0 |})
          (Some unit_tensor))
       (line_of "1,2,3,4,5,6,7")).1 = [].
Proof.
  apply (wrong_tensor_type echo_Invoke
           (set_tensors ready_globals
              (Some {| type := kTfLiteFloat32; params_scale := f_one;
                       params_zero_point := 0 |})
              (Some unit_tensor))).
  reflexivity.
Defined.

(** ** Requests do not depend on earlier requests *)

Section History.

Variable Invoke : list Z -> option Z.

Lemma measure_and_run_model_ext g1 g2 :
  interpreter g2 = interpreter g1 -> input_tensor g2 = input_tensor g1 ->
  output_tensor g2 = output_tensor g1 -> input_array g2 = input_array g1 ->
  measure_and_run_model Invoke g2 = measure_and_run_model Invoke g1.
Proof.
  intros H1 H2 H3 H4. unfold measure_and_run_model.
  rewrite H1, H2, H3, H4. reflexivity.
Qed.

Lemma process_input_agree g1 g2 :
  agree g1 g2 ->
  (process_input Invoke g2).1 = (process_input Invoke g1).1
  /\ outcomes_agree (process_input Invoke g1).2 (process_input Invoke g2).2.
Proof.
  intros ((Hi & Hin & Hout & Hbuf & Hidx) & Hl1 & Hl2).
  unfold process_input. rewrite Hbuf, Hidx.
  destruct (c_str (in_str_buff g1)) as [in_str|]; [|split; [reflexivity | exact I]].
  rewrite !string_to_array_spec. cbv zeta.
  destruct (min INT_ARRAY_SIZE (length (tokens in_str)) =? INT_ARRAY_SIZE) eqn:E;
    cbn [negb].
  - apply Nat.eqb_eq in E.
    assert (Hv : forall a, length a = INT_ARRAY_SIZE ->
              store_from 0 (map atoi (take INT_ARRAY_SIZE (tokens in_str))) a
              = map atoi (take INT_ARRAY_SIZE (tokens in_str))).
    { intros a Ha. apply store_from_all.
      rewrite length_map, length_take, Ha. lia. }
    rewrite (Hv _ Hl1), (Hv _ Hl2), !measure_and_run_model_set_line.
    rewrite (measure_and_run_model_ext (set_input_array g1 _) (set_input_array g2 _))
      by (try reflexivity; assumption).
    destruct (measure_and_run_model Invoke _) as [evs [[]|]]; cbn [returning fst snd];
      (split; [reflexivity|]); [|exact I].
    repeat split; try assumption;
      cbn [set_line set_input_array input_array]; rewrite length_map, length_take; lia.
  - cbn [fst snd]. split; [reflexivity|].
    repeat split; try assumption;
      cbn [set_line set_input_array input_array]; rewrite store_from_length; assumption.
Qed.

Lemma loop_agree g1 g2 c :
  agree g1 g2 ->
  (loop Invoke g2 c).1 = (loop Invoke g1 c).1
  /\ outcomes_agree (loop Invoke g1 c).2 (loop Invoke g2 c).2.
Proof.
  intros Hag. pose proof Hag as ((Hi & Hin & Hout & Hbuf & Hidx) & Hl1 & Hl2).
  unfold loop. rewrite Hbuf, Hidx.
  destruct (negb _); [split; [reflexivity | exact I]|].
  assert (Hag1 : forall b i, agree (set_line g1 b i) (set_line g2 b i)).
  { intros b i. repeat split; assumption. }
  destruct (Ascii.eqb c CR).
  - destruct (process_input_agree _ _ (Hag1 (<[in_buff_idx g1 := c]> (in_str_buff g1))
                                          (S (in_buff_idx g1)))) as [He Hr].
    destruct (process_input Invoke (set_line g1 _ _)) as [evs1 r1].
    destruct (process_input Invoke (set_line g2 _ _)) as [evs2 r2].
    cbn [fst snd] in He, Hr. subst evs2.
    destruct r1 as [a|], r2 as [b|]; cbn [fst snd]; try contradiction;
      (split; [reflexivity|]); [|exact I].
    destruct Hr as ((K1 & K2 & K3 & K4 & K5) & K6 & K7).
    repeat split; assumption.
  - cbn [in_buff_idx set_line].
    destruct (INPUT_BUFFER_SIZE <=? _); cbn [fst snd]; (split; [reflexivity|]);
      apply Hag1.
Qed.

Lemma run_agree bytes :
  forall g1 g2,
    agree g1 g2 ->
    (run Invoke g2 bytes).1 = (run Invoke g1 bytes).1
    /\ outcomes_agree (run Invoke g1 bytes).2 (run Invoke g2 bytes).2.
Proof.
  induction bytes as [|c bytes IH]; intros g1 g2 Hag; simpl.
  - split; [reflexivity | exact Hag].
  - destruct (loop_agree g1 g2 c Hag) as [He Hr].
    destruct (loop Invoke g1 c) as [evs1 r1].
    destruct (loop Invoke g2 c) as [evs2 r2].
    cbn [fst snd] in He, Hr. subst evs2.
    destruct r1 as [a|], r2 as [b|]; try contradiction;
      [|split; [reflexivity | exact I]].
    destruct (IH a b Hr) as [He' Hr'].
    destruct (run Invoke a bytes) as [evs3 r3].
    destruct (run Invoke b bytes) as [evs4 r4].
    cbn [fst snd] in *. subst evs4. split; [reflexivity | exact Hr'].
Qed.

End History.

(** X5.  No request depends on the requests before it.  Once earlier input
    has been processed up to the end of a line, whatever follows produces
    the same events as on the sketch that has not received anything yet,
    and is defined in the same cases: the values left in [input_array] by
    earlier lines never reach the model.  In particular a line sent twice
    is answered twice in the same way. *)
Theorem request_independent_of_history Invoke g before evs0 g' bytes :
  holds g [] -> length (input_array g) = INT_ARRAY_SIZE ->
  run Invoke g before = (evs0, Done g') -> holds g' [] ->
  (run Invoke g' bytes).1 = (run Invoke g bytes).1
  /\ outcomes_agree (run Invoke g bytes).2 (run Invoke g' bytes).2.
Proof.
  intros H Hlen Hrun H'.
  destruct (run_engine Invoke before g evs0 g' Hrun) as (E1 & E2 & E3 & E4).
  destruct H as (Hb & Hi & _). destruct H' as (Hb' & Hi' & _).
  apply run_agree. repeat split; try assumption; congruence.
Qed.

Lemma request_independent_of_history_witness :
  (run echo_Invoke
     (set_input_array ready_globals [9; 8; 7; 6; 5; 4; 3]%Z)
     (line_of "1,2,3,4,5,6,7")).1
  = (run echo_Invoke ready_globals (line_of "1,2,3,4,5,6,7")).1.
Proof.
  refine (proj1 (request_independent_of_history echo_Invoke ready_globals
           (line_of "9,8,7,6,5,4,3")
           (run echo_Invoke ready_globals (line_of "9,8,7,6,5,4,3")).1
           (set_input_array ready_globals [9; 8; 7; 6; 5; 4; 3]%Z)
           (line_of "1,2,3,4,5,6,7") holds_ready eq_refl _ _)).
  - vm_compute. reflexivity.
  - repeat split. unfold INPUT_BUFFER_SIZE. simpl. lia.
Defined.

(** ** Shape of the output *)

Lemma quantize_loop_stores count :
  forall i input_array input_scale input_zero_point,
    forallb (store_below (i + count))
      (quantize_loop count i input_array input_scale input_zero_point).1 = true.
Proof.
  induction count as [|count IH]; intros i a s zp; simpl; [reflexivity|].
  destruct (a !! i) as [x|]; [|reflexivity].
  unfold quantized_value, static_cast_int8.
  destruct (float_trunc _) as [z|]; [|reflexivity].
  destruct (fits_int8 z) eqn:Hz; [|reflexivity].
  specialize (IH (S i) a s zp).
  fold (quantized_value) in IH.
  destruct (quantize_loop count (S i) a s zp) as [evs r]. cbn [fst] in *.
  cbn [forallb store_below]. rewrite Hz.
  replace (i + S count) with (S i + count) by lia. rewrite IH.
  assert ((i <? S i + count) = true) as -> by (apply Nat.ltb_lt; lia).
  reflexivity.
Qed.

Lemma predicted_integer_fits pf p : predicted_integer pf = Some p -> fits_int8 p = true.
Proof.
  unfold predicted_integer. destruct (int_of (round pf)) as [n|]; [|discriminate].
  intros [= <-]. rewrite clamp_ifs_clamp.
  pose proof (clamp_int8_bounds n) as [H1 H2].
  unfold fits_int8, INT8_MIN, INT8_MAX.
  apply andb_true_intro. split; apply Z.leb_le; assumption.
Qed.

Section Shape.

Variable Invoke : list Z -> option Z.

Lemma measure_and_run_model_shape g :
  exists sts tail,
    (measure_and_run_model Invoke g).1 = println running :: sts ++ tail
    /\ forallb (store_below INT_ARRAY_SIZE) sts = true
    /\ measure_tail (measure_and_run_model Invoke g).2 tail.
Proof.
  unfold measure_and_run_model, measure_tail.
  destruct (input_tensor g) as [tin|];
    [|exists [], []; repeat split; left; split; reflexivity].
  destruct (negb (is_int8 (type tin)));
    [exists [], [println type_error]; repeat split; right; left; split; reflexivity|].
  destruct (output_tensor g) as [tout|];
    [|exists [], []; repeat split; left; split; reflexivity].
  destruct (negb (is_int8 (type tout)));
    [exists [], [println type_error]; repeat split; right; left; split; reflexivity|].
  pose proof (quantize_loop_stores INT_ARRAY_SIZE 0 (input_array g)
                (params_scale tin) (params_zero_point tin)) as Hst.
  destruct (quantize_loop _ _ _ _ _) as [sts r]. cbn [fst Nat.add] in Hst.
  destruct r as [qs|];
    [|exists sts, []; rewrite app_nil_r; repeat split;
      [exact Hst | left; split; reflexivity]].
  destruct (negb (interpreter g));
    [exists sts, []; rewrite app_nil_r; repeat split;
      [exact Hst | left; split; reflexivity]|].
  destruct (Invoke qs) as [raw|];
    [|exists sts, [Invoke_call; println invoke_failed]; repeat split;
      [exact Hst | right; right; left; split; reflexivity]].
  unfold report. cbv zeta.
  destruct (predicted_integer _) as [p|] eqn:Hp.
  - eexists sts, _. split; [reflexivity|]. split; [exact Hst|].
    do 4 right. split; [reflexivity|]. eexists _, p. split; [reflexivity|].
    exact (predicted_integer_fits _ _ Hp).
  - eexists sts, _. split; [reflexivity|]. split; [exact Hst|].
    do 3 right. left. split; [reflexivity|]. eexists. reflexivity.
Qed.

(** A property of events that holds of every event of a response holds of
    every event of a run. *)
Lemma process_input_events (P : event -> bool) :
  P (println error_arity) = true ->
  (forall g, forallb P (measure_and_run_model Invoke g).1 = true) ->
  forall g, forallb P (process_input Invoke g).1 = true.
Proof.
  intros Herr Hm g. unfold process_input.
  destruct (c_str (in_str_buff g)) as [in_str|]; [|reflexivity].
  destruct (string_to_array in_str (input_array g)) as [a n].
  destruct (negb (n =? INT_ARRAY_SIZE)); [simpl; rewrite Herr; reflexivity|].
  specialize (Hm (set_input_array g a)).
  destruct (measure_and_run_model Invoke _) as [evs [[]|]]; exact Hm.
Qed.

Lemma loop_events g c :
  exists evs,
    (loop Invoke g c).1 = print_char c :: evs
    /\ (evs = []
        \/ (Ascii.eqb c CR = true
            /\ exists g1, evs = println_empty :: (process_input Invoke g1).1)).
Proof.
  unfold loop. destruct (negb _); [exists []; split; [reflexivity | left; reflexivity]|].
  destruct (Ascii.eqb c CR).
  - destruct (process_input Invoke _) as [evs1 r1] eqn:E.
    exists (println_empty :: evs1). split; [destruct r1; reflexivity|].
    right. split; [reflexivity|]. eexists. rewrite E. reflexivity.
  - exists []. split; [|left; reflexivity].
    destruct (INPUT_BUFFER_SIZE <=? _); reflexivity.
Qed.

Lemma run_events (P : event -> bool) :
  (forall c, P (print_char c) = true) ->
  P println_empty = true ->
  (forall g, forallb P (process_input Invoke g).1 = true) ->
  forall bytes g, forallb P (run Invoke g bytes).1 = true.
Proof.
  intros Hecho Hempty Hp bytes.
  induction bytes as [|c bytes IH]; intros g; simpl; [reflexivity|].
  destruct (loop_events g c) as (evs & He & Hevs).
  destruct (loop Invoke g c) as [evs1 r1]. cbn [fst] in He. subst evs1.
  assert (Hloop : forallb P (print_char c :: evs) = true).
  { cbn [forallb]. rewrite Hecho.
    destruct Hevs as [-> | (_ & g1 & ->)]; [reflexivity|].
    cbn [forallb andb]. rewrite Hempty, Hp. reflexivity. }
  destruct r1 as [g1|]; [|exact Hloop].
  specialize (IH g1). destruct (run Invoke g1 bytes) as [evs2 r2]. cbn [fst] in *.
  rewrite forallb_app, Hloop, IH. reflexivity.
Qed.

End Shape.

Lemma store_below_in_range e :
  store_below INT_ARRAY_SIZE e = true -> in_range_event e = true.
Proof. destruct e; try discriminate. intros H. exact H. Qed.

Lemma forallb_impl (P Q : event -> bool) evs :
  (forall e, P e = true -> Q e = true) ->
  forallb P evs = true -> forallb Q evs = true.
Proof.
  intros HPQ. induction evs as [|e evs IH]; [reflexivity|].
  simpl. intros [He Hevs]%andb_prop. rewrite (HPQ e He), (IH Hevs). reflexivity.
Qed.

(** X6.  Whatever the model, the state of the sketch and the bytes
    received, every byte ever stored into the input tensor goes to an index
    below 7 and lies in [-128, 127], and every integer ever printed as a
    prediction lies in [-128, 127]. *)
Theorem events_in_range Invoke g bytes :
  forallb in_range_event (run Invoke g bytes).1 = true.
Proof.
  apply run_events; try reflexivity.
  apply process_input_events; [reflexivity|].
  intros g0. destruct (measure_and_run_model_shape Invoke g0)
    as (sts & tail & -> & Hsts & Htail).
  cbn [forallb in_range_event]. rewrite forallb_app.
  rewrite (forallb_impl _ _ sts store_below_in_range Hsts). cbn [andb].
  destruct Htail as [[_ ->] | [[_ ->] | [[_ ->] | [[_ [pf ->]] | [_ (pf & p & -> & Hp)]]]]];
    try reflexivity.
  cbn [forallb report_events in_range_event]. rewrite Hp. reflexivity.
Qed.

Lemma filter_none (P : event -> bool) evs :
  forallb (fun e => negb (P e)) evs = true -> filter P evs = [].
Proof.
  induction evs as [|e evs IH]; [reflexivity|].
  simpl. intros [He Hevs]%andb_prop. rewrite filter_cons, (IH Hevs).
  destruct (P e); [discriminate He | reflexivity].
Qed.

Lemma store_below_not n (P : event -> bool) sts :
  (forall i q, P (input_store i q) = false) ->
  forallb (store_below n) sts = true -> filter P sts = [].
Proof.
  intros HP H. apply filter_none. revert H. apply forallb_impl.
  intros e. destruct e; try discriminate. intros _. rewrite HP. reflexivity.
Qed.

Section Output.

Variable Invoke : list Z -> option Z.

Lemma process_input_not_echo g : forallb not_echo (process_input Invoke g).1 = true.
Proof.
  apply process_input_events; [reflexivity|].
  intros g0. destruct (measure_and_run_model_shape Invoke g0)
    as (sts & tail & -> & Hsts & Htail).
  cbn [forallb]. rewrite forallb_app. cbn [not_echo is_echo negb andb].
  apply andb_true_intro. split.
  - revert Hsts. apply forallb_impl. intros e. destruct e; try discriminate. reflexivity.
  - destruct Htail as [[_ ->] | [[_ ->] | [[_ ->] | [[_ [pf ->]] | [_ (pf & p & -> & _)]]]]];
      reflexivity.
Qed.

Lemma echo_blocks_echoes bytes :
  forall blocks,
    responses bytes blocks = true ->
    filter is_echo (echo_blocks bytes blocks)
    = map print_char (take (length blocks) bytes)
    /\ length blocks <= length bytes.
Proof.
  induction bytes as [|c bytes IH]; intros [|b blocks] H;
    try (split; [reflexivity | simpl; lia]); [discriminate H|].
  cbn [responses] in H. apply andb_prop in H as [H Hrest].
  apply andb_prop in H as [Hb _].
  destruct (IH blocks Hrest) as [He Hlen].
  cbn [echo_blocks length take map]. rewrite filter_cons. cbn [is_echo].
  rewrite decide_True by exact I.
  rewrite filter_app, (filter_none is_echo b Hb), He. split; [reflexivity | lia].
Qed.

Lemma process_input_invoke_once g :
  length (filter is_Invoke (process_input Invoke g).1) <= 1.
Proof.
  unfold process_input.
  destruct (c_str (in_str_buff g)) as [in_str|]; [|simpl; lia].
  destruct (string_to_array in_str (input_array g)) as [a n].
  cbv zeta. destruct (negb (n =? INT_ARRAY_SIZE)); [simpl; lia|].
  rewrite measure_and_run_model_set_line.
  destruct (measure_and_run_model_shape Invoke (set_input_array g a))
    as (sts & tail & He & Hsts & Htail).
  destruct (measure_and_run_model Invoke _) as [evs r]. cbn [fst snd] in *.
  assert (forall g0, (returning g0 (evs, r)).1 = evs) as ->
    by (intros g0; destruct r as [[]|]; reflexivity).
  subst evs. rewrite filter_cons. cbn [is_Invoke].
  rewrite filter_app, (store_below_not INT_ARRAY_SIZE is_Invoke sts)
    by (assumption || reflexivity).
  destruct Htail as [[_ ->] | [[_ ->] | [[_ ->] | [[_ [pf ->]] | [_ (pf & p & -> & _)]]]]];
    simpl; lia.
Qed.

End Output.

(** X7.  The output of a run is made, byte by byte in the order received,
    of the echo of the byte followed by what that byte caused.  What a
    byte causes contains no echo, and is nothing at all unless the byte is
    the terminator.  So each byte is echoed before anything it causes and
    after everything the bytes before it caused, and the echoes of a run
    are the bytes processed, in order; when the run returns, every byte it
    was given has been processed. *)
Theorem echo_of_every_byte Invoke bytes :
  forall g,
    exists blocks,
      (run Invoke g bytes).1 = echo_blocks bytes blocks
      /\ responses bytes blocks = true
      /\ length blocks <= length bytes
      /\ filter is_echo (run Invoke g bytes).1
         = map print_char (take (length blocks) bytes)
      /\ (forall evs g', run Invoke g bytes = (evs, Done g') ->
                         length blocks = length bytes).
Proof.
  assert (Hmain : forall g,
            exists blocks,
              (run Invoke g bytes).1 = echo_blocks bytes blocks
              /\ responses bytes blocks = true
              /\ (forall evs g', run Invoke g bytes = (evs, Done g') ->
                                 length blocks = length bytes)).
  { induction bytes as [|c bytes IH]; intros g.
    - exists []. repeat split.
    - destruct (loop_events Invoke g c) as (evs1 & He & Hevs).
      assert (Hresp : forallb not_echo evs1
                      && (is_CR c || match evs1 with [] => true | _ => false end)
                      = true).
      { destruct Hevs as [-> | (Hc & g1 & ->)].
        - cbn [forallb andb]. apply orb_true_r.
        - unfold is_CR. rewrite Hc. cbn [forallb not_echo is_echo negb andb orb].
          rewrite process_input_not_echo. reflexivity. }
      cbn [run]. destruct (loop Invoke g c) as [evs0 r0]. cbn [fst] in He. subst evs0.
      destruct r0 as [g1|].
      + destruct (IH g1) as (blocks & Hrun & Hblocks & Hdone).
        destruct (run Invoke g1 bytes) as [evs2 r2]. cbn [fst] in *. subst evs2.
        exists (evs1 :: blocks). split; [reflexivity|]. split.
        * cbn [responses]. rewrite Hresp, Hblocks. reflexivity.
        * intros evs g' [= _ ->]. cbn [length]. rewrite (Hdone _ g' eq_refl). reflexivity.
      + exists [evs1]. cbn [fst echo_blocks]. rewrite app_nil_r.
        split; [reflexivity|]. split; [|discriminate].
        cbn [responses]. rewrite Hresp. reflexivity. }
  intros g. destruct (Hmain g) as (blocks & Hrun & Hblocks & Hdone).
  destruct (echo_blocks_echoes bytes blocks Hblocks) as [He Hlen].
  exists blocks. rewrite Hrun. repeat split; assumption.
Qed.

Lemma echo_of_every_byte_witness :
  exists blocks,
    (run echo_Invoke ready_globals (line_of "1,2,3")).1
    = echo_blocks (line_of "1,2,3") blocks
    /\ responses (line_of "1,2,3") blocks = true
    /\ length blocks <= length (line_of "1,2,3")
    /\ filter is_echo (run echo_Invoke ready_globals (line_of "1,2,3")).1
       = map print_char (take (length blocks) (line_of "1,2,3"))
    /\ (forall evs g',
           run echo_Invoke ready_globals (line_of "1,2,3") = (evs, Done g') ->
           length blocks = length (line_of "1,2,3")).
Proof.
  exact (echo_of_every_byte echo_Invoke (line_of "1,2,3") ready_globals).
Defined.

(** X8.  [Invoke] is called at most once for each terminator received, and
    never for any other byte. *)
Theorem invoke_at_most_once_per_line Invoke bytes :
  forall g,
    length (filter is_Invoke (run Invoke g bytes).1)
    <= length (filter is_CR bytes).
Proof.
  induction bytes as [|c bytes IH]; intros g; [simpl; lia|].
  destruct (loop_events Invoke g c) as (evs1 & He & Hevs).
  assert (Hloop : length (filter is_Invoke (loop Invoke g c).1)
                  <= if is_CR c then 1 else 0).
  { rewrite He, filter_cons. cbn [is_Invoke]. unfold is_CR.
    destruct Hevs as [-> | (-> & g1 & ->)]; [simpl; destruct (Ascii.eqb c CR); lia|].
    rewrite filter_cons. cbn [is_Invoke]. apply process_input_invoke_once. }
  cbn [run]. destruct (loop Invoke g c) as [evs0 r0]. cbn [fst] in Hloop.
  rewrite filter_cons.
  destruct r0 as [g1|].
  - specialize (IH g1). destruct (run Invoke g1 bytes) as [evs2 r2]. cbn [fst] in *.
    rewrite filter_app, length_app.
    destruct (is_CR c); [rewrite decide_True by exact I | rewrite decide_False by (intros [])];
      simpl; lia.
  - cbn [fst]. destruct (is_CR c);
      [rewrite decide_True by exact I | rewrite decide_False by (intros [])]; simpl; lia.
Qed.

(** ** Input without a terminator *)

(** X9.  Without a terminator nothing is answered, however long the input
    is: the bytes are echoed, nothing else happens and the sketch is never
    stuck.  The buffer then holds what is left of the bytes received since
    the last reset after a whole number of 64-byte blocks was dropped. *)
Theorem no_response_without_terminator Invoke bytes :
  forall g l,
    holds g l -> cr_free bytes = true ->
    exists k,
      run Invoke g bytes
      = (map print_char bytes,
         Done (with_line g (drop (k * INPUT_BUFFER_SIZE) (l ++ bytes))))
      /\ length (drop (k * INPUT_BUFFER_SIZE) (l ++ bytes)) < INPUT_BUFFER_SIZE.
Proof.
  induction bytes as [|c bytes IH]; intros g l H Hcr.
  - exists 0. rewrite app_nil_r. cbn [Nat.mul run].
    rewrite drop_0, (with_line_holds g l H).
    split; [reflexivity|]. destruct H as (_ & _ & Hl). exact Hl.
  - simpl in Hcr. apply andb_prop in Hcr as [Hc Hcr]. apply negb_true_iff in Hc.
    pose proof H as (_ & _ & Hl).
    destruct (decide (S (length l) = INPUT_BUFFER_SIZE)) as [Hfull|Hroom].
    + destruct (IH (with_line g []) [] (holds_with_line g [] ltac:(unfold INPUT_BUFFER_SIZE; simpl; lia)) Hcr)
        as (k & Hrun & Hlen).
      exists (S k). cbn [run]. rewrite (loop_overflow Invoke g l c H Hc Hfull), Hrun.
      assert (Hdrop : drop (S k * INPUT_BUFFER_SIZE) (l ++ c :: bytes)
                      = drop (k * INPUT_BUFFER_SIZE) bytes).
      { change (l ++ c :: bytes) with (l ++ [c] ++ bytes). rewrite app_assoc.
        replace (S k * INPUT_BUFFER_SIZE)
          with (length (l ++ [c]) + k * INPUT_BUFFER_SIZE)
          by (rewrite length_app; cbn [length]; unfold INPUT_BUFFER_SIZE in *; lia).
        apply drop_app_add. }
      rewrite Hdrop. split; [reflexivity | exact Hlen].
    + destruct (IH (with_line g (l ++ [c])) (l ++ [c])) as (k & Hrun & Hlen).
      { apply holds_with_line. rewrite length_app. simpl. lia. }
      { exact Hcr. }
      exists k. cbn [run]. rewrite (loop_append Invoke g l c H Hc) by lia.
      rewrite Hrun. rewrite <- app_assoc in *. split; [reflexivity | exact Hlen].
Qed.

Lemma no_response_without_terminator_witness :
  exists k,
    run echo_Invoke ready_globals (replicate 70 "7"%char)
    = (map print_char (replicate 70 "7"%char),
       Done (with_line ready_globals
               (drop (k * INPUT_BUFFER_SIZE) ([] ++ replicate 70 "7"%char))))
    /\ length (drop (k * INPUT_BUFFER_SIZE) ([] ++ replicate 70 "7"%char))
       < INPUT_BUFFER_SIZE.
Proof.
  apply (no_response_without_terminator echo_Invoke (replicate 70 "7"%char)
           ready_globals []).
  - exact holds_ready.
  - reflexivity.
Defined.

(** ** What is printed for a line *)

(** X10.  When [process_input] returns, what it has printed is one of four
    things: the arity error; the start line and the type error; the start
    line and the failure of [Invoke]; or the start line and the complete
    report with an integer in [-128, 127].  A failure never comes with a
    prediction. *)
Theorem printed_for_a_line Invoke g evs g' :
  process_input Invoke g = (evs, Done g') ->
  filter is_printed evs = [println error_arity]
  \/ filter is_printed evs = [println running; println type_error]
  \/ filter is_printed evs = [println running; println invoke_failed]
  \/ exists pf p,
       filter is_printed evs = println running :: report_events pf p
       /\ (-128 <= p <= 127)%Z.
Proof.
  unfold process_input.
  destruct (c_str (in_str_buff g)) as [in_str|]; [|discriminate].
  destruct (string_to_array in_str (input_array g)) as [a n].
  destruct (negb (n =? INT_ARRAY_SIZE)); [intros [= <- _]; left; reflexivity|].
  destruct (measure_and_run_model_shape Invoke (set_input_array g a))
    as (sts & tail & He & Hsts & Htail).
  destruct (measure_and_run_model Invoke _) as [evs1 r]. cbn [fst snd] in *.
  destruct r as [[]|]; [|discriminate]. intros [= <- _]. subst evs1.
  rewrite filter_cons. cbn [is_printed is_inference negb].
  rewrite decide_True by exact I.
  rewrite filter_app, (store_below_not INT_ARRAY_SIZE is_printed sts)
    by (assumption || reflexivity).
  destruct Htail as [[Hr _] | [[_ ->] | [[_ ->] | [[Hr _] | [_ (pf & p & -> & Hp)]]]]];
    try discriminate Hr.
  - right. left. reflexivity.
  - right. right. left. reflexivity.
  - right. right. right. exists pf, p. split; [reflexivity|].
    unfold fits_int8, INT8_MIN, INT8_MAX in Hp.
    apply andb_prop in Hp as [H1 H2]. apply Z.leb_le in H1. apply Z.leb_le in H2. lia.
Qed.

Lemma printed_for_a_line_witness :
  filter is_printed
    (process_input echo_Invoke (with_line ready_globals (line_of "1,2"))).1
  = [println error_arity]
  \/ filter is_printed
       (process_input echo_Invoke (with_line ready_globals (line_of "1,2"))).1
     = [println running; println type_error]
  \/ filter is_printed
       (process_input echo_Invoke (with_line ready_globals (line_of "1,2"))).1
     = [println running; println invoke_failed]
  \/ exists pf p,
       filter is_printed
         (process_input echo_Invoke (with_line ready_globals (line_of "1,2"))).1
       = println running :: report_events pf p
       /\ (-128 <= p <= 127)%Z.
Proof.
  apply (printed_for_a_line echo_Invoke (with_line ready_globals (line_of "1,2")) _
           (set_line
              (set_input_array (with_line ready_globals (line_of "1,2"))
                 [1; 2; 0; 0; 0; 0; 0]%Z)
              (chars "1" ++ NUL :: line_of "2" ++ replicate 60 NUL) 4)).
  reflexivity.
Defined.

(** ** More on [string_to_array] *)

(** X11.  [string_to_array] returns at most 7, leaves the array with its 7
    cells, fills the cells below the count it returns with the values of
    the tokens, and leaves the other cells as they were: after a short
    line the array still holds values of earlier lines. *)
Theorem string_to_array_keeps_rest in_str int_array :
  length int_array = INT_ARRAY_SIZE ->
  let r := string_to_array in_str int_array in
  r.2 <= INT_ARRAY_SIZE
  /\ length r.1 = INT_ARRAY_SIZE
  /\ take r.2 r.1 = map atoi (take r.2 (tokens in_str))
  /\ drop r.2 r.1 = drop r.2 int_array.
Proof.
  intros Hlen. rewrite string_to_array_spec. cbn [fst snd].
  set (vals := map atoi (take INT_ARRAY_SIZE (tokens in_str))).
  set (n := min INT_ARRAY_SIZE (length (tokens in_str))).
  assert (Hn : length vals = n) by (unfold vals, n; rewrite length_map, length_take; lia).
  pose proof (store_from_app 0 vals [] int_array eq_refl) as E.
  cbn [app] in E. rewrite E by lia. rewrite Hn.
  split; [unfold n; lia|]. split.
  - rewrite length_app, length_drop. lia.
  - split.
    + rewrite take_app_length' by (symmetry; exact Hn). unfold vals, n.
      rewrite <- take_take.
      rewrite (take_ge (tokens in_str) (length (tokens in_str))) by lia. reflexivity.
    + rewrite drop_app_length' by (symmetry; exact Hn). reflexivity.
Qed.

Lemma string_to_array_keeps_rest_witness :
  drop 2 (string_to_array (chars "1,2") [9; 8; 7; 6; 5; 4; 3]%Z).1
  = [7; 6; 5; 4; 3]%Z.
Proof.
  apply (string_to_array_keeps_rest (chars "1,2") [9; 8; 7; 6; 5; 4; 3]%Z).
  reflexivity.
Defined.

Lemma fields_count s : length (fields s) = S (count_commas s).
Proof.
  induction s as [|c s IH]; [reflexivity|]. simpl.
  destruct (Ascii.eqb c comma); simpl; [rewrite IH; reflexivity|].
  destruct (fields s); simpl in *; [discriminate IH | exact IH].
Qed.

Lemma tokens_count s : length (tokens s) <= S (count_commas s).
Proof.
  rewrite <- fields_count. unfold tokens. apply length_filter.
Qed.

Lemma count_commas_app a b : count_commas (a ++ b) = count_commas a + count_commas b.
Proof.
  induction a as [|c a IH]; [reflexivity|]. simpl.
  destruct (Ascii.eqb c comma); simpl; rewrite IH; reflexivity.
Qed.

Lemma count_commas_until_nul s : count_commas (until_nul s) <= count_commas s.
Proof.
  induction s as [|c s IH]; [reflexivity|]. simpl.
  destruct (Ascii.eqb c NUL); simpl; destruct (Ascii.eqb c comma); simpl; lia.
Qed.

(** X12.  A line needs six commas: whatever else it holds, a line of at
    most 62 bytes with fewer than six commas is answered with the arity
    error. *)
Theorem few_commas_rejected Invoke g l :
  holds g [] -> cr_free l = true -> S (length l) < INPUT_BUFFER_SIZE ->
  count_commas l < 6 ->
  exists g',
    run Invoke g (l ++ [CR])
    = (map print_char l ++ [print_char CR; println_empty; println error_arity],
       Done g').
Proof.
  intros H Hcr Hlen Hfew.
  assert (Hs : c_str (in_str_buff (with_line g (l ++ [CR])))
               = Some (until_nul (l ++ [CR]))).
  { apply c_str_with_line. rewrite length_app. simpl. lia. }
  rewrite (run_line Invoke g l H Hcr) by lia.
  rewrite (after_line_process_input Invoke _ _ Hs). cbv zeta.
  assert (Htok : (length (tokens (until_nul (l ++ [CR]))) <? INT_ARRAY_SIZE) = true).
  { apply Nat.ltb_lt.
    pose proof (tokens_count (until_nul (l ++ [CR]))) as H1.
    pose proof (count_commas_until_nul (l ++ [CR])) as H2.
    rewrite count_commas_app in H2. simpl in H2. unfold INT_ARRAY_SIZE. lia. }
  rewrite Htok. eexists. reflexivity.
Qed.

Lemma few_commas_rejected_witness :
  exists g',
    run echo_Invoke ready_globals (chars "1 2 3 4 5 6 7" ++ [CR])
    = (map print_char (chars "1 2 3 4 5 6 7")
         ++ [print_char CR; println_empty; println error_arity], Done g').
Proof.
  apply (few_commas_rejected echo_Invoke ready_globals (chars "1 2 3 4 5 6 7")).
  - exact holds_ready.
  - reflexivity.
  - unfold INPUT_BUFFER_SIZE. simpl. lia.
  - simpl. lia.
Defined.

Lemma fields_comma_free t : comma_free t = true -> fields t = [t].
Proof.
  induction t as [|c t IH]; [reflexivity|]. simpl.
  intros [Hc Ht]%andb_prop. apply negb_true_iff in Hc. rewrite Hc, (IH Ht).
  reflexivity.
Qed.

Lemma tokens_plain t : plain_token t = true -> tokens t = [t].
Proof.
  unfold plain_token. intros [Hne Hcf]%andb_prop.
  unfold tokens. rewrite (fields_comma_free t Hcf).
  destruct t; [discriminate Hne | reflexivity].
Qed.

(** X13.  Splitting undoes joining: tokens that are not empty and hold no
    comma, written with one comma between them, are found again as they
    were, and [string_to_array] stores the values of the first seven. *)
Theorem tokens_of_joined toks :
  forallb plain_token toks = true ->
  tokens (join toks) = toks
  /\ forall int_array,
       string_to_array (join toks) int_array
       = (store_from 0 (map atoi (take INT_ARRAY_SIZE toks)) int_array,
          min INT_ARRAY_SIZE (length toks)).
Proof.
  intros Hall.
  assert (Htok : tokens (join toks) = toks).
  { induction toks as [|t toks IH]; [reflexivity|].
    simpl in Hall. apply andb_prop in Hall as [Ht Hall].
    destruct toks as [|t' toks].
    - simpl. apply tokens_plain. exact Ht.
    - change (join (t :: t' :: toks)) with (t ++ comma :: join (t' :: toks)).
      rewrite tokens_app_comma, (tokens_plain t Ht), (IH Hall). reflexivity. }
  split; [exact Htok|]. intros a. rewrite string_to_array_spec, Htok. reflexivity.
Qed.

Lemma tokens_of_joined_witness :
  tokens (join [chars "12"; chars "-3"; chars "x"]) = [chars "12"; chars "-3"; chars "x"].
Proof.
  apply (tokens_of_joined [chars "12"; chars "-3"; chars "x"]). reflexivity.
Defined.

(** ** Lines that do not end in the buffer, and lines cut short *)

(** X14.  A line of 63 bytes without NUL puts its terminator into the
    last cell of the buffer, so that the buffer holds no NUL any more: the
    bytes are echoed, the blank line is printed, and the string that
    [process_input] then reads is not terminated inside the array. *)
Theorem line_of_63_bytes Invoke g l :
  holds g [] -> cr_free l = true -> nul_free l = true ->
  S (length l) = INPUT_BUFFER_SIZE ->
  run Invoke g (l ++ [CR])
  = (map print_char l ++ [print_char CR; println_empty], Undefined).
Proof.
  intros H Hcr Hnul Hlen.
  rewrite run_app, (run_append Invoke l g [] H Hcr) by (simpl; lia).
  rewrite run_single. cbn [app].
  rewrite (terminator_in_last_cell Invoke (with_line g l) l); [reflexivity| |exact Hlen|exact Hnul].
  apply holds_with_line. lia.
Qed.

Lemma line_of_63_bytes_witness :
  run echo_Invoke ready_globals (replicate 63 "1"%char ++ [CR])
  = (map print_char (replicate 63 "1"%char) ++ [print_char CR; println_empty],
     Undefined).
Proof.
  exact (line_of_63_bytes echo_Invoke ready_globals (replicate 63 "1"%char)
           holds_ready eq_refl eq_refl eq_refl).
Defined.

Lemma after_line_until_nul Invoke g s s' :
  length s < INPUT_BUFFER_SIZE -> length s' < INPUT_BUFFER_SIZE ->
  until_nul s = until_nul s' ->
  after_line (process_input Invoke (with_line g s))
  = after_line (process_input Invoke (with_line g s')).
Proof.
  intros Hs Hs' E.
  rewrite (after_line_process_input Invoke _ _ (c_str_with_line g s Hs)).
  rewrite (after_line_process_input Invoke _ _ (c_str_with_line g s' Hs')).
  cbv zeta. rewrite E.
  destruct (length (tokens (until_nul s')) <? INT_ARRAY_SIZE).
  - cbn [after_line]. rewrite !with_line_forgets. reflexivity.
  - rewrite (measure_and_run_model_ext Invoke
               (set_input_array (with_line g s')
                  (store_from 0 (map atoi (take INT_ARRAY_SIZE (tokens (until_nul s'))))
                     (input_array (with_line g s'))))
               (set_input_array (with_line g s)
                  (store_from 0 (map atoi (take INT_ARRAY_SIZE (tokens (until_nul s'))))
                     (input_array (with_line g s)))))
      by reflexivity.
    destruct (measure_and_run_model Invoke _) as [evs [[]|]]; cbn [returning after_line];
      [|reflexivity].
    rewrite !with_line_forgets. reflexivity.
Qed.

(** X15.  A NUL byte ends the line for the tokenizer.  The bytes that
    follow it, up to and including the terminator, are echoed and
    otherwise ignored: the response and the state afterwards are those of
    [process_input] on a buffer that holds only the bytes before the
    NUL. *)
Theorem nul_ends_line Invoke g l1 l2 :
  holds g [] -> cr_free (l1 ++ NUL :: l2) = true -> nul_free l1 = true ->
  S (length (l1 ++ NUL :: l2)) < INPUT_BUFFER_SIZE ->
  run Invoke g ((l1 ++ NUL :: l2) ++ [CR])
  = let '(evs, r) := after_line (process_input Invoke (with_line g l1)) in
    (map print_char (l1 ++ NUL :: l2) ++ evs, r).
Proof.
  intros H Hcr Hnul Hlen.
  rewrite (run_line Invoke g _ H Hcr) by lia.
  rewrite (after_line_until_nul Invoke g ((l1 ++ NUL :: l2) ++ [CR]) l1).
  - reflexivity.
  - rewrite length_app. simpl. lia.
  - rewrite length_app in Hlen. lia.
  - rewrite <- app_assoc. cbn [app].
    assert (Hc : forall r, until_nul (l1 ++ NUL :: r) = until_nul l1).
    { intros r. clear -Hnul. induction l1 as [|c l IH]; simpl; [reflexivity|].
      simpl in Hnul. destruct (Ascii.eqb c NUL); [reflexivity|].
      rewrite IH by exact Hnul. reflexivity. }
    apply Hc.
Qed.

Lemma nul_ends_line_witness :
  run echo_Invoke ready_globals
    ((chars "1,2,3,4,5,6" ++ NUL :: chars ",7") ++ [CR])
  = (map print_char (chars "1,2,3,4,5,6" ++ NUL :: chars ",7")
       ++ [print_char CR; println_empty; println error_arity],
     Done (set_input_array ready_globals [1; 2; 3; 4; 5; 6; 0]%Z)).
Proof.
  apply (nul_ends_line echo_Invoke ready_globals (chars "1,2,3,4,5,6") (chars ",7")).
  - exact holds_ready.
  - reflexivity.
  - reflexivity.
  - unfold INPUT_BUFFER_SIZE. simpl. lia.
Defined.

(** ** The scale of the input tensor *)

(** X16.  An input equal to the zero point is stored as byte 0 whatever
    the scale, provided the scale is neither zero nor NaN; with such a
    scale the quotient is NaN and the conversion has no value. *)
Theorem zero_point_stored_as_zero input_scale input_zero_point :
  quantized_value input_zero_point input_scale input_zero_point
  = if divides input_scale then Some 0%Z else None.
Proof.
  unfold quantized_value. rewrite Z.sub_diag.
  change (float_of_int 0) with (S754_zero false).
  destruct input_scale as [s|s| |s m e]; try reflexivity; destruct s; reflexivity.
Qed.

(** ** What [setup] fixes *)

(** X18.  The interpreter and the tensor pointers are set by [setup] and by
    nothing else.  In every state the sketch reaches from the initial
    state through [setup] and any input, both tensor pointers are set when
    the schema version matched and the allocation succeeded and both are
    null otherwise, the interpreter is initialised exactly when the schema
    version matched, and [input_array] has its seven cells. *)
Theorem engine_fixed_by_setup TFLITE_SCHEMA_VERSION model_version AllocateTensors
    tin tout Invoke bytes evs g :
  run Invoke
    (setup TFLITE_SCHEMA_VERSION model_version AllocateTensors tin tout
       initial_globals).2 bytes = (evs, Done g) ->
  (input_tensor g, output_tensor g)
  = tensors_after_setup ((model_version =? TFLITE_SCHEMA_VERSION)%Z && AllocateTensors)
      tin tout
  /\ interpreter g = (model_version =? TFLITE_SCHEMA_VERSION)%Z
  /\ length (input_array g) = INT_ARRAY_SIZE.
Proof.
  intros Hrun. destruct (run_engine Invoke _ _ _ _ Hrun) as (H1 & H2 & H3 & H4).
  rewrite H1, H2, H3, H4. unfold setup.
  destruct (model_version =? TFLITE_SCHEMA_VERSION)%Z; cbn [negb andb];
    [destruct AllocateTensors; cbn [negb]|]; repeat split.
Qed.

Lemma engine_fixed_by_setup_witness :
  (input_tensor (with_line ready_globals (chars "1,2")),
   output_tensor (with_line ready_globals (chars "1,2")))
  = tensors_after_setup ((3 =? 3)%Z && true) unit_tensor unit_tensor
  /\ interpreter (with_line ready_globals (chars "1,2")) = (3 =? 3)%Z
  /\ length (input_array (with_line ready_globals (chars "1,2"))) = INT_ARRAY_SIZE.
Proof.
  apply (engine_fixed_by_setup 3 3 true unit_tensor unit_tensor echo_Invoke
           (chars "1,2") (map print_char (chars "1,2"))).
  reflexivity.
Defined.

(** ** The prediction that is reported *)

(** X19.  When the request reaches the interpreter and [Invoke] succeeds
    with the byte [raw_prediction], the prediction is computed in single
    precision as [(raw_prediction - output_zero_point) * output_scale].
    Whenever that value is finite and its nearest integer fits an [int],
    the report that [measure_and_run_model] prints after the call shows
    this value and then its nearest integer, halves rounded away from
    zero, clamped to [-128, 127]. *)
Theorem prediction_reported Invoke g tin tout qs raw_prediction :
  input_tensor g = Some tin -> output_tensor g = Some tout ->
  interpreter g = true ->
  type tin = kTfLiteInt8 -> type tout = kTfLiteInt8 ->
  length (input_array g) = INT_ARRAY_SIZE ->
  quantize_all (input_array g) (params_scale tin) (params_zero_point tin) = Some qs ->
  Invoke qs = Some raw_prediction -> fits_int8 raw_prediction = true ->
  let pf := predicted_float raw_prediction (params_scale tout) (params_zero_point tout) in
  let nearest := round_to_nearest (F2Q pf) in
  is_finite pf = true -> (INT_MIN <= nearest <= INT_MAX)%Z ->
  measure_and_run_model Invoke g
  = (println running :: stores 0 qs
       ++ [Invoke_call;
           print "Raw dequantized prediction (float): "; println_float pf;
           print "Predicted next integer value: ";
           println_int (Z.max (-128) (Z.min 127 nearest));
           print "Printing time (us): "; println_elapsed t1 t0;
           print "Inference time (us): "; println_elapsed t2 t1],
     Done tt).
Proof.
  intros Hin Hout Hint Htin Htout Hlen Hq Hinv _ pf nearest Hfin Hrange.
  rewrite (measure_and_run_model_ready Invoke g tin tout qs Hin Hout Hint Htin Htout Hlen Hq).
  rewrite Hinv. cbv zeta. fold pf.
  rewrite (predicted_integer_defined pf Hfin Hrange). reflexivity.
Qed.

Lemma prediction_reported_witness :
  measure_and_run_model (fun _ => Some 100%Z)
    (set_tensors (set_input_array ready_globals [1; 2; 3; 4; 5; 6; 7]%Z)
       (Some unit_tensor)
       (Some {| type := kTfLiteInt8;
                params_scale := fdiv (float_of_int 3) (float_of_int 2);
                params_zero_point := -20 |}))
  = (println running :: stores 0 [1; 2; 3; 4; 5; 6; 7]%Z
       ++ [Invoke_call;
           print "Raw dequantized prediction (float): ";
           println_float
             (predicted_float 100 (fdiv (float_of_int 3) (float_of_int 2)) (-20));
           print "Predicted next integer value: "; println_int 127;
           print "Printing time (us): "; println_elapsed t1 t0;
           print "Inference time (us): "; println_elapsed t2 t1],
     Done tt).
Proof.
  apply (prediction_reported (fun _ => Some 100%Z) _ unit_tensor
           {| type := kTfLiteInt8;
              params_scale := fdiv (float_of_int 3) (float_of_int 2);
              params_zero_point := -20 |} [1; 2; 3; 4; 5; 6; 7]%Z 100);
    try reflexivity.
  vm_compute. split; discriminate.
Defined.
